(** * Conjugate gradient on Riemannian manifolds (mqf/optimization/conjugate_gradient.h)

    A shallow embedding of [mqf::ConjugateGradient<Geodesic,Scheme>] and the
    properties of its [step] and [optimize] member functions.

    - [double] is IEEE-754 binary64, embedded as Rocq's primitive [float];
    - [uint32_t] is embedded as [Z] with the wrap-around written out;
    - the template parameters (the geodesic, its metric, the point and
      tangent vector types) and the line search of [linesearch.h] are
      interfaces, embedded as type classes;
    - member functions mutate [*this]; here they pass the instance
      explicitly and return the updated one. *)

From Stdlib Require Import Floats ZArith List Bool Lia.
Import ListNotations.

Local Open Scope Z_scope.

Abbreviation double := float (only parsing).

(** [uint32_t] arithmetic: values live in [0, 2^32). *)
Definition uint32_max : Z := 2 ^ 32.
Definition uint32 (z : Z) : Z := z mod uint32_max.
Definition is_uint32 (z : Z) : Prop := 0 <= z < uint32_max.

(** Tags for the CG schemes (lines 7-12). *)
Inductive Scheme : Set :=
| FletcherReeves
| PolakRibiere
| HestenesStiefel
| ConjugateDescent
| DaiYuan.

(** [template<typename Geodesic, typename Scheme = HestenesStiefel>] (line 21). *)
Definition DefaultScheme : Scheme := HestenesStiefel.

(** ** Interfaces required from the template parameters *)

(** Tangent vectors: unary minus, [+=], binary minus and [Vector * double]. *)
Class VectorOps (Vector : Type) : Type := {
  vneg : Vector -> Vector;
  vadd : Vector -> Vector -> Vector;
  vsub : Vector -> Vector -> Vector;
  vscale : Vector -> double -> Vector
}.

(** [Metric::InnerProduct]: the object [metric(p)]; it is callable on two
    vectors and has a member [norm2]. *)
Record InnerProduct (Vector : Type) : Type := {
  inner : Vector -> Vector -> double;
  norm2 : Vector -> double
}.
Arguments inner {Vector} _ _ _.
Arguments norm2 {Vector} _ _.

(** [Metric]: callable on a point, yields the inner product there. *)
Definition Metric (Point Vector : Type) : Type := Point -> InnerProduct Vector.

Module Geodesic.
(** The members of [Geodesic] used by the optimizer: [set(p, v)],
    [operator()(t)], [parallelTranslate(v, t)] and the field [velocity]. *)
Class Ops (G Point Vector : Type) : Type := {
  set : G -> Point -> Vector -> G;
  at_ : G -> double -> Point;
  parallelTranslate : G -> Vector -> double -> Vector;
  velocity : G -> Vector
}.
End Geodesic.

Module LineSearch.
(** [linesearch.h] is included by the optimizer but its text is not among
    the sources; the optimizer is therefore stated over every line search
    offering the members it uses: the readable field [alpha], [reset()] and
    [search(value, derivative)], which returns the step size and may update
    the line search's own state. *)
Class Ops (LS : Type) : Type := {
  alpha : LS -> double;
  reset : LS -> LS;
  search : LS -> (double -> double) -> (double -> double) -> double * LS
}.

(** The same line search read through another [alpha] accessor. *)
Definition with_alpha {LS : Type} (a : LS -> double) (L : Ops LS) : Ops LS :=
  {| alpha := a; reset := @reset LS L; search := @search LS L |}.
End LineSearch.

(** ** The optimizer *)

Section ConjugateGradient.

Context {Point Vector G LS : Type}.
Context {VO : VectorOps Vector}.
Context {GO : Geodesic.Ops G Point Vector}.
Context {LO : LineSearch.Ops LS}.

(** The data members of [struct ConjugateGradient] (lines 27-35). *)
Record ConjugateGradient : Type := mkCG {
  metric : Metric Point Vector;
  geodesic : G;
  lineSearch : LS;
  n : Z;
  maxSteps : Z;
  x : Point;
  lastX : Point;
  grad : Vector;
  lastGrad : Vector;
  velocity : Vector;
  ptLastVel : Vector
}.

(** Assignments to single members. *)
Definition set_geodesic (v : G) (s : ConjugateGradient) : ConjugateGradient :=
  mkCG (metric s) v (lineSearch s) (n s) (maxSteps s) (x s) (lastX s)
       (grad s) (lastGrad s) (velocity s) (ptLastVel s).
Definition set_lineSearch (v : LS) (s : ConjugateGradient) : ConjugateGradient :=
  mkCG (metric s) (geodesic s) v (n s) (maxSteps s) (x s) (lastX s)
       (grad s) (lastGrad s) (velocity s) (ptLastVel s).
Definition set_n (v : Z) (s : ConjugateGradient) : ConjugateGradient :=
  mkCG (metric s) (geodesic s) (lineSearch s) v (maxSteps s) (x s) (lastX s)
       (grad s) (lastGrad s) (velocity s) (ptLastVel s).
Definition set_x (v : Point) (s : ConjugateGradient) : ConjugateGradient :=
  mkCG (metric s) (geodesic s) (lineSearch s) (n s) (maxSteps s) v (lastX s)
       (grad s) (lastGrad s) (velocity s) (ptLastVel s).
Definition set_lastX (v : Point) (s : ConjugateGradient) : ConjugateGradient :=
  mkCG (metric s) (geodesic s) (lineSearch s) (n s) (maxSteps s) (x s) v
       (grad s) (lastGrad s) (velocity s) (ptLastVel s).
Definition set_grad (v : Vector) (s : ConjugateGradient) : ConjugateGradient :=
  mkCG (metric s) (geodesic s) (lineSearch s) (n s) (maxSteps s) (x s) (lastX s)
       v (lastGrad s) (velocity s) (ptLastVel s).
Definition set_lastGrad (v : Vector) (s : ConjugateGradient) : ConjugateGradient :=
  mkCG (metric s) (geodesic s) (lineSearch s) (n s) (maxSteps s) (x s) (lastX s)
       (grad s) v (velocity s) (ptLastVel s).
Definition set_velocity (v : Vector) (s : ConjugateGradient) : ConjugateGradient :=
  mkCG (metric s) (geodesic s) (lineSearch s) (n s) (maxSteps s) (x s) (lastX s)
       (grad s) (lastGrad s) v (ptLastVel s).
Definition set_ptLastVel (v : Vector) (s : ConjugateGradient) : ConjugateGradient :=
  mkCG (metric s) (geodesic s) (lineSearch s) (n s) (maxSteps s) (x s) (lastX s)
       (grad s) (lastGrad s) (velocity s) v.

(** [swap( lastGrad, grad )] and [swap( lastX, x )]. *)
Definition swap_lastGrad_grad (s : ConjugateGradient) : ConjugateGradient :=
  set_grad (lastGrad s) (set_lastGrad (grad s) s).
Definition swap_lastX_x (s : ConjugateGradient) : ConjugateGradient :=
  set_x (lastX s) (set_lastX (x s) s).

(** [modifier<Scheme>()] (lines 94-126), one clause per specialisation. *)
Definition modifier (sch : Scheme) (s : ConjugateGradient) : double :=
  match sch with
  | FletcherReeves =>
      (norm2 (metric s (x s)) (grad s)
       / norm2 (metric s (lastX s)) (lastGrad s))%float
  | PolakRibiere =>
      let innerProduct := metric s (x s) in
      let ptlastGrad :=
        Geodesic.parallelTranslate (geodesic s) (lastGrad s)
                                   (LineSearch.alpha (lineSearch s)) in
      (inner innerProduct (grad s) (vsub (grad s) ptlastGrad)
       / norm2 innerProduct ptlastGrad)%float
  | HestenesStiefel =>
      let innerProduct := metric s (x s) in
      let ptlastGrad :=
        Geodesic.parallelTranslate (geodesic s) (lastGrad s)
                                   (LineSearch.alpha (lineSearch s)) in
      let diff := vsub (grad s) ptlastGrad in
      (inner innerProduct (grad s) diff
       / inner innerProduct (ptLastVel s) diff)%float
  | ConjugateDescent =>
      let innerProduct := metric s (x s) in
      let ptlastGrad :=
        Geodesic.parallelTranslate (geodesic s) (lastGrad s)
                                   (LineSearch.alpha (lineSearch s)) in
      (- norm2 innerProduct (grad s)
       / inner innerProduct (ptLastVel s) ptlastGrad)%float
  | DaiYuan =>
      let innerProduct := metric s (x s) in
      let ptlastGrad :=
        Geodesic.parallelTranslate (geodesic s) (lastGrad s)
                                   (LineSearch.alpha (lineSearch s)) in
      (norm2 innerProduct (grad s)
       / inner innerProduct (ptLastVel s) (vsub (grad s) ptlastGrad))%float
  end.

Section Step.

(** [beta] stands for the member [modifier<Scheme>]; [cost] and
    [gradient] are the two callables handed to [step]. *)
Variable beta : ConjugateGradient -> double.
Variable cost : Point -> double.
Variable gradient : Point -> Vector.

(** Lines 41-53 of [step]: new gradient, CG velocity, geodesic. *)
Definition step_direction (s : ConjugateGradient) : ConjugateGradient :=
  (* update the gradient *)
  let s := swap_lastGrad_grad s in
  let s := set_grad (gradient (x s)) s in
  (* the CG velocity is the negative gradient modified by the previous velocity *)
  let s := set_velocity (vneg (grad s)) s in
  let s :=
    if 0 <? n s then
      let s :=
        set_ptLastVel
          (Geodesic.parallelTranslate (geodesic s)
             (Geodesic.velocity (geodesic s))
             (LineSearch.alpha (lineSearch s))) s in
      set_velocity (vadd (velocity s) (vscale (ptLastVel s) (beta s))) s
    else s in
  (* set the geodesic *)
  set_geodesic (Geodesic.set (geodesic s) (x s) (velocity s)) s.

(** The first lambda handed to [lineSearch.search] (lines 57-59). *)
Definition search_value (s : ConjugateGradient) : double -> double :=
  fun t => cost (Geodesic.at_ (geodesic s) t).

(** The second lambda handed to [lineSearch.search] (lines 60-66). *)
Definition search_derivative (s : ConjugateGradient) : double -> double :=
  fun t =>
    let xt := Geodesic.at_ (geodesic s) t in
    inner (metric s xt)
          (gradient xt)
          (Geodesic.parallelTranslate (geodesic s)
             (Geodesic.velocity (geodesic s)) t).

(** The call [lineSearch.search(...)] of lines 56-67, made on the
    instance as [step_direction] left it. *)
Definition step_search (s : ConjugateGradient) : double * LS :=
  LineSearch.search (lineSearch s) (search_value s) (search_derivative s).

(** [bool step( S&& cost, DS&& gradient )] (lines 38-76). *)
Definition step_with (s : ConjugateGradient) : bool * ConjugateGradient :=
  let s := step_direction s in
  (* line search the geodesic *)
  let '(alpha, ls) := step_search s in
  let s := set_lineSearch ls s in
  if (alpha <=? 0)%float then (false, s)
  else
    (* step to the new position *)
    let s := swap_lastX_x s in
    let s := set_x (Geodesic.at_ (geodesic s) alpha) s in
    (true, s).

(** The previous geodesic's velocity, carried along the previous geodesic
    by the step size the line search holds from the previous step. *)
Definition transported_velocity (s : ConjugateGradient) : Vector :=
  Geodesic.parallelTranslate (geodesic s) (Geodesic.velocity (geodesic s))
    (LineSearch.alpha (lineSearch s)).

(** The previous gradient, carried the same way. *)
Definition transported_gradient (s : ConjugateGradient) : Vector :=
  Geodesic.parallelTranslate (geodesic s) (grad s)
    (LineSearch.alpha (lineSearch s)).

(** The instance as [modifier] sees it when [step] is called on [s]. *)
Definition at_modifier (s : ConjugateGradient) : ConjugateGradient :=
  mkCG (metric s) (geodesic s) (lineSearch s) (n s) (maxSteps s)
       (x s) (lastX s) (gradient (x s)) (grad s) (vneg (gradient (x s)))
       (transported_velocity s).

End Step.

(** Two instances that agree on every member except [lastGrad] and
    [ptLastVel]. *)
Definition same_but_history (s t : ConjugateGradient) : Prop :=
  metric s = metric t /\ geodesic s = geodesic t /\
  lineSearch s = lineSearch t /\ n s = n t /\ maxSteps s = maxSteps t /\
  x s = x t /\ lastX s = lastX t /\ grad s = grad t /\
  velocity s = velocity t.

Section Optimize.

Variable sch : Scheme.
Variable cost : Point -> double.
Variable gradient : Point -> Vector.

(** [step] of an optimizer instantiated with scheme [sch]. *)
Definition step (s : ConjugateGradient) : bool * ConjugateGradient :=
  step_with (modifier sch) cost gradient s.

(** The step size the line search returns when [step] is called on [s]. *)
Definition step_alpha (s : ConjugateGradient) : double :=
  fst (step_search cost gradient (step_direction (modifier sch) gradient s)).

(** The loop [for(n=0;n<maxSteps;++n) if( !step(..) ) break;] from the
    test of its condition on; [None] when the fuel runs out. *)
Fixpoint optimize_loop (fuel : nat) (s : ConjugateGradient)
  : option ConjugateGradient :=
  match fuel with
  | O => None
  | S fuel' =>
      if n s <? maxSteps s then
        let '(ok, s) := step s in
        if ok then optimize_loop fuel' (set_n (uint32 (n s + 1)) s)
        else Some s
      else Some s
  end.

(** Lines 80-82 up to the loop's initialisation [n=0]. *)
Definition optimize_init (initial : Point) (s : ConjugateGradient)
  : ConjugateGradient :=
  let s := set_x initial s in
  let s := set_lineSearch (LineSearch.reset (lineSearch s)) s in
  set_n 0 s.

(** [Point optimize( initial, cost, gradient )] (lines 78-87): the
    returned point together with the instance as the call leaves it. *)
Definition optimize (fuel : nat) (initial : Point) (s : ConjugateGradient)
  : option (Point * ConjugateGradient) :=
  match optimize_loop fuel (optimize_init initial s) with
  | Some s => Some (x s, s)
  | None => None
  end.

(** The same loop, also collecting the instances on which [step] was
    called, in call order. *)
Fixpoint optimize_loop_calls (fuel : nat) (s : ConjugateGradient)
  : option (list ConjugateGradient * ConjugateGradient) :=
  match fuel with
  | O => None
  | S fuel' =>
      if n s <? maxSteps s then
        let '(ok, s') := step s in
        if ok then
          match optimize_loop_calls fuel' (set_n (uint32 (n s' + 1)) s') with
          | Some (calls, r) => Some (s :: calls, r)
          | None => None
          end
        else Some ([s], s')
      else Some ([], s)
  end.

Definition optimize_calls (fuel : nat) (initial : Point) (s : ConjugateGradient)
  : option (list ConjugateGradient * ConjugateGradient) :=
  optimize_loop_calls fuel (optimize_init initial s).

(** The points held in [x] after each call of [step]. *)
Definition visited (calls : list ConjugateGradient) : list Point :=
  map (fun c => x (snd (step c))) calls.

(** What the specification says of [optimize]: at most [k] calls of
    [step], the [i]-th with iteration index [i], ended by the first
    call that fails. *)
Fixpoint iterate_steps (k : nat) (i : Z) (s : ConjugateGradient)
  : ConjugateGradient :=
  match k with
  | O => s
  | S k' =>
      let r := step (set_n i s) in
      if fst r then iterate_steps k' (i + 1) (snd r) else snd r
  end.

Definition optimize_spec (initial : Point) (s : ConjugateGradient) : Point :=
  x (iterate_steps (Z.to_nat (maxSteps s)) 0
       (set_lineSearch (LineSearch.reset (lineSearch s)) (set_x initial s))).

End Optimize.

End ConjugateGradient.

Arguments ConjugateGradient : clear implicits.

(** ** A flat test geometry

    The Euclidean plane in [double] coordinates: geodesics are straight
    lines, parallel transport is the identity and the metric is the dot
    product at every point. *)

Module Euclid.

Local Open Scope float_scope.

Definition vec2 : Type := (double * double)%type.

#[export] Instance vec2_ops : VectorOps vec2 := {|
  vneg v := (- fst v, - snd v);
  vadd u v := (fst u + fst v, snd u + snd v);
  vsub u v := (fst u - fst v, snd u - snd v);
  vscale v c := (fst v * c, snd v * c)
|}.

Definition dot (u v : vec2) : double := fst u * fst v + snd u * snd v.

Definition dot_metric : Metric vec2 vec2 :=
  fun _ => {| inner := dot; norm2 := fun v => dot v v |}.

(** A straight line through [origin] with velocity [direction]. *)
Record Line : Type := mkLine { origin : vec2; direction : vec2 }.

#[export] Instance line_ops : Geodesic.Ops Line vec2 vec2 := {|
  Geodesic.set _ p v := mkLine p v;
  Geodesic.at_ g t :=
    (fst (origin g) + t * fst (direction g),
     snd (origin g) + t * snd (direction g));
  Geodesic.parallelTranslate _ v _ := v;
  Geodesic.velocity := direction
|}.

(** A line search for tests: one secant step on the derivative between
    [t = 0] and [t = 1] when the direction descends at [t = 0], and the
    sentinel [0] otherwise. Its state is the last step size. *)
Definition secant_search : LineSearch.Ops double := {|
  LineSearch.alpha a := a;
  LineSearch.reset _ := 1;
  LineSearch.search _ _ df :=
    let d0 := df 0 in
    let d1 := df 1 in
    let a := if d0 <? 0 then d0 / (d0 - d1) else 0 in
    (a, a)
|}.

(** A line search for tests that always steps by [1]. *)
Definition unit_search : LineSearch.Ops double := {|
  LineSearch.alpha a := a;
  LineSearch.reset _ := 1;
  LineSearch.search _ _ _ := (1, 1)
|}.

(** A line search for tests that records what its two arguments give at
    [t0] and steps by [1]. *)
Definition probe_search (t0 : double) : LineSearch.Ops (double * double) := {|
  LineSearch.alpha _ := 1;
  LineSearch.reset _ := (0, 0);
  LineSearch.search _ f df := (1, (f t0, df t0))
|}.

(** [f(x) = x1^2 + x2^2] and its gradient. *)
Definition sphere (p : vec2) : double := fst p * fst p + snd p * snd p.
Definition sphere_grad (p : vec2) : vec2 := (2 * fst p, 2 * snd p).

(** [f(x) = x1], which has no minimum along any line it is not constant on. *)
Definition slope (p : vec2) : double := fst p.
Definition slope_grad (_ : vec2) : vec2 := (1, 0).

(** An optimizer instance before its first run, with the given cap. *)
Definition fresh (cap : Z) : ConjugateGradient vec2 vec2 Line double :=
  mkCG dot_metric (mkLine (0, 0) (0, 0)) 1 0%Z cap
       (0, 0) (0, 0) (0, 0) (0, 0) (0, 0) (0, 0).

(** The instance as [optimize] enters its loop from [(3, 4)], cap 10. *)
Definition start : ConjugateGradient vec2 vec2 Line double :=
  mkCG dot_metric (mkLine (0, 0) (0, 0)) 1 0%Z 10%Z
       (3, 4) (0, 0) (0, 0) (0, 0) (0, 0) (0, 0).

(** An instance at [(3, 4)] whose line search is a probe. *)
Definition probing : ConjugateGradient vec2 vec2 Line (double * double) :=
  mkCG dot_metric (mkLine (0, 0) (0, 0)) (0, 0) 0%Z 10%Z
       (3, 4) (0, 0) (0, 0) (0, 0) (0, 0) (0, 0).

(** The instance after a first successful step from [(3, 4)] on [sphere]. *)
Definition after_first : ConjugateGradient vec2 vec2 Line double :=
  mkCG dot_metric (mkLine (3, 4) (-6, -8)) 0.5 1%Z 10%Z
       (0, 0) (3, 4) (6, 8) (0, 0) (-6, -8) (0, 0).

End Euclid.

(** ** The moving-average crossover rule (mqf/trading/strategies/moving_average.h)

    [struct BasicMA] and its member [compute]. The headers [action.h] and
    [wma.h] it includes are not among the sources, so what it uses of them
    is taken as given: the type [Action] with its values [Action::Out] and
    [Action::Long], and [WMA(period).back(p1, p2)], the weighted average a
    [WMA] built with [period] gives on a range, with the [>] of its result
    type. The iterator pair [(p1, p2)] is the list of the elements between
    them; [int] periods are kept as [Z]. *)

Module BasicMA.

Section Strategy.

Variable Action : Type.
Variables Out Long : Action.
Variable Sample : Type.
Variable Average : Type.
Variable gt : Average -> Average -> bool.
Variable WMA_back : Z -> list Sample -> Average.

(** The data members [int shortPeriod, longPeriod]. *)
Record t : Type := make { shortPeriod : Z; longPeriod : Z }.

(** [explicit BasicMA( int shortPeriod = 50, int longPeriod = 100 )] with
    both, one or no argument given. *)
Definition default : t := make 50 100.
Definition with_short (shortPeriod : Z) : t := make shortPeriod 100.

(** [Action compute( It p1, It p2 ) const] (lines 18-31). *)
Definition compute (m : t) (range : list Sample) : Action :=
  let count := Z.of_nat (length range) in
  if count <? Z.max (shortPeriod m) (longPeriod m) then Out
  else
    let shortMA := WMA_back (shortPeriod m) range in
    let longMA := WMA_back (longPeriod m) range in
    if gt shortMA longMA then Long
    else Out.

End Strategy.

Arguments shortPeriod : clear implicits.
Arguments longPeriod : clear implicits.
Arguments compute {Action} Out Long {Sample Average} gt WMA_back m range.

(** A stand-in for [WMA(period).back] in tests: the plain sum of the last
    [period] samples. *)
Definition sum_back (period : Z) (range : list double) : double :=
  fold_right PrimFloat.add 0%float (firstn (Z.to_nat period) (rev range)).

(** [a > b] on [double]. *)
Definition double_gt (a b : double) : bool := (b <? a)%float.

End BasicMA.

(** ** Properties of [step] *)

(** Case analysis on the test [alpha <= 0.0] that ends [step]. *)
Ltac case_alpha :=
  match goal with
  | |- context [if ?b then (false, _) else _] => destruct b
  end.

Section StepProperties.

Context {Point Vector G LS : Type}.
Context {VO : VectorOps Vector}.
Context {GO : Geodesic.Ops G Point Vector}.
Context {LO : LineSearch.Ops LS}.

Abbreviation CG := (ConjugateGradient Point Vector G LS).

Variable beta : CG -> double.
Variable cost : Point -> double.
Variable gradient : Point -> Vector.

(** [step] in one piece: the result in terms of the instance that
    [step_direction] prepares and of what the line search answers. *)
Lemma step_with_eq (s : CG) :
  step_with beta cost gradient s =
    let d := step_direction beta gradient s in
    let r := step_search cost gradient d in
    if (fst r <=? 0)%float then (false, set_lineSearch (snd r) d)
    else (true,
          mkCG (metric d) (geodesic d) (snd r) (n d) (maxSteps d)
               (Geodesic.at_ (geodesic d) (fst r)) (x d)
               (grad d) (lastGrad d) (velocity d) (ptLastVel d)).
Proof.
  unfold step_with. cbv zeta.
  destruct (step_search cost gradient (step_direction beta gradient s)) as [a ls].
  cbn [fst snd]. destruct (a <=? 0)%float; reflexivity.
Qed.

(** What [step_direction] writes, member by member. *)
Lemma step_direction_eq (s : CG) :
  step_direction beta gradient s =
    let g := gradient (x s) in
    let pt := Geodesic.parallelTranslate (geodesic s)
                (Geodesic.velocity (geodesic s))
                (LineSearch.alpha (lineSearch s)) in
    let m := mkCG (metric s) (geodesic s) (lineSearch s) (n s) (maxSteps s)
                  (x s) (lastX s) g (grad s) (vneg g) pt in
    let v := if 0 <? n s then vadd (vneg g) (vscale pt (beta m)) else vneg g in
    mkCG (metric s) (Geodesic.set (geodesic s) (x s) v) (lineSearch s)
         (n s) (maxSteps s) (x s) (lastX s) g (grad s) v
         (if 0 <? n s then pt else ptLastVel s).
Proof.
  unfold step_direction, swap_lastGrad_grad. cbn.
  destruct (0 <? n s); reflexivity.
Qed.

Lemma step_with_n (s : CG) : n (snd (step_with beta cost gradient s)) = n s.
Proof.
  rewrite step_with_eq, step_direction_eq. cbv zeta.
  case_alpha; reflexivity.
Qed.

Lemma step_with_maxSteps (s : CG) :
  maxSteps (snd (step_with beta cost gradient s)) = maxSteps s.
Proof.
  rewrite step_with_eq, step_direction_eq. cbv zeta.
  case_alpha; reflexivity.
Qed.

Lemma step_with_metric (s : CG) :
  metric (snd (step_with beta cost gradient s)) = metric s.
Proof.
  rewrite step_with_eq, step_direction_eq. cbv zeta.
  case_alpha; reflexivity.
Qed.

(** The branch taken by [step] is decided by the test [alpha <= 0.0]. *)
Lemma step_with_fst (s : CG) :
  fst (step_with beta cost gradient s) =
    negb (fst (step_search cost gradient (step_direction beta gradient s)) <=? 0)%float.
Proof.
  rewrite step_with_eq. cbv zeta.
  case_alpha; reflexivity.
Qed.

End StepProperties.

Section SchemeProperties.

Context {Point Vector G LS : Type}.
Context {VO : VectorOps Vector}.
Context {GO : Geodesic.Ops G Point Vector}.
Context {LO : LineSearch.Ops LS}.

Abbreviation CG := (ConjugateGradient Point Vector G LS).

Variable sch : Scheme.
Variable cost : Point -> double.
Variable gradient : Point -> Vector.

(** C1. Every call of [step] evaluates the gradient at [x]; when [n] is 0
    the velocity it leaves is the negated gradient, and when [n > 0] it is
    the negated gradient plus [ptLastVel] scaled by the scheme's beta,
    [ptLastVel] being the previous geodesic's velocity transported along
    the previous geodesic by the previous step's [alpha]. *)
Theorem step_velocity :
  (forall s : CG,
      n s = 0 ->
      let s' := snd (step sch cost gradient s) in
      grad s' = gradient (x s) /\
      velocity s' = vneg (grad s')) /\
  (forall s : CG,
      0 < n s ->
      let s' := snd (step sch cost gradient s) in
      grad s' = gradient (x s) /\
      ptLastVel s' = transported_velocity s /\
      velocity s' =
        vadd (vneg (grad s'))
             (vscale (ptLastVel s') (modifier sch (at_modifier gradient s)))).
Proof.
  split; intros s Hn; cbv zeta; unfold step;
    rewrite step_with_eq, step_direction_eq; cbv zeta.
  - rewrite Hn. change (0 <? 0) with false.
    case_alpha; split; reflexivity.
  - apply Z.ltb_lt in Hn. rewrite Hn.
    case_alpha; repeat split; reflexivity.
Qed.

(** C4. Hestenes-Stiefel is the scheme of an optimizer declared without
    one, and for every iteration with [n > 0] its beta is the inner product
    at [x] of [grad] with [grad - ptlastGrad], divided by the inner product
    of [ptLastVel] with [grad - ptlastGrad], [ptlastGrad] being the previous
    gradient transported along the previous geodesic by the previous
    step's [alpha]. *)
Theorem hestenes_stiefel_beta :
  DefaultScheme = HestenesStiefel /\
  (forall m : CG,
      let ip := metric m (x m) in
      let ptlastGrad :=
        Geodesic.parallelTranslate (geodesic m) (lastGrad m)
          (LineSearch.alpha (lineSearch m)) in
      modifier HestenesStiefel m =
        (inner ip (grad m) (vsub (grad m) ptlastGrad)
         / inner ip (ptLastVel m) (vsub (grad m) ptlastGrad))%float) /\
  (forall s : CG,
      0 < n s ->
      let s' := snd (step DefaultScheme cost gradient s) in
      let ip := metric s (x s) in
      let ptlastGrad := transported_gradient s in
      let b := (inner ip (grad s') (vsub (grad s') ptlastGrad)
                / inner ip (ptLastVel s') (vsub (grad s') ptlastGrad))%float in
      grad s' = gradient (x s) /\
      ptLastVel s' = transported_velocity s /\
      velocity s' = vadd (vneg (grad s')) (vscale (ptLastVel s') b)).
Proof.
  split; [reflexivity|]. split; [reflexivity|].
  intros s Hn. cbv zeta. unfold step.
  rewrite step_with_eq, step_direction_eq. cbv zeta.
  apply Z.ltb_lt in Hn. rewrite Hn.
  case_alpha; repeat split; reflexivity.
Qed.

(** C5. Under Fletcher-Reeves, for every iteration with [n > 0], beta is
    the squared norm of the current gradient under the inner product at the
    current point [x], divided by the squared norm of the previous gradient
    under the inner product at the previous point [lastX]. *)
Theorem fletcher_reeves_beta :
  (forall m : CG,
      modifier FletcherReeves m =
        (norm2 (metric m (x m)) (grad m)
         / norm2 (metric m (lastX m)) (lastGrad m))%float) /\
  (forall s : CG,
      0 < n s ->
      let s' := snd (step FletcherReeves cost gradient s) in
      let b := (norm2 (metric s (x s)) (grad s')
                / norm2 (metric s (lastX s)) (grad s))%float in
      grad s' = gradient (x s) /\
      lastGrad s' = grad s /\
      velocity s' = vadd (vneg (grad s')) (vscale (ptLastVel s') b)).
Proof.
  split; [reflexivity|].
  intros s Hn. cbv zeta. unfold step.
  rewrite step_with_eq, step_direction_eq. cbv zeta.
  apply Z.ltb_lt in Hn. rewrite Hn.
  case_alpha; repeat split; reflexivity.
Qed.

(** C6. In every call of [step], whatever the line search, the value
    function it is handed is [t |-> cost(geodesic(t))] and the derivative
    function is [t |-> metric(geodesic(t))(gradient(geodesic(t)), v_t)],
    [v_t] being the geodesic's velocity transported to parameter [t]; the
    geodesic is the one [step] has just bound to [x] and the new velocity. *)
Theorem step_line_search_functions (s : CG) :
  let s' := snd (step sch cost gradient s) in
  let g := Geodesic.set (geodesic s) (x s) (velocity s') in
  exists f df : double -> double,
    (forall t, f t = cost (Geodesic.at_ g t)) /\
    (forall t,
        df t = inner (metric s (Geodesic.at_ g t))
                     (gradient (Geodesic.at_ g t))
                     (Geodesic.parallelTranslate g (Geodesic.velocity g) t)) /\
    geodesic s' = g /\
    step_alpha sch cost gradient s = fst (LineSearch.search (lineSearch s) f df) /\
    lineSearch s' = snd (LineSearch.search (lineSearch s) f df) /\
    fst (step sch cost gradient s) =
      negb (fst (LineSearch.search (lineSearch s) f df) <=? 0)%float.
Proof.
  cbv zeta.
  exists (search_value cost (step_direction (modifier sch) gradient s)),
         (search_derivative gradient (step_direction (modifier sch) gradient s)).
  assert (Hv : velocity (snd (step sch cost gradient s)) =
               velocity (step_direction (modifier sch) gradient s)).
  { unfold step. rewrite step_with_eq. cbv zeta.
    case_alpha; reflexivity. }
  assert (Hg : geodesic (step_direction (modifier sch) gradient s) =
               Geodesic.set (geodesic s) (x s)
                 (velocity (step_direction (modifier sch) gradient s))).
  { rewrite step_direction_eq. reflexivity. }
  assert (Hm : metric (step_direction (modifier sch) gradient s) = metric s).
  { rewrite step_direction_eq. reflexivity. }
  assert (Hl : lineSearch (step_direction (modifier sch) gradient s) = lineSearch s).
  { rewrite step_direction_eq. reflexivity. }
  rewrite Hv, <- Hg.
  split; [reflexivity|]. split.
  { intros t. unfold search_derivative. cbv zeta. rewrite Hm. reflexivity. }
  rewrite <- Hl.
  split.
  { unfold step. rewrite step_with_eq. cbv zeta.
    case_alpha; reflexivity. }
  split; [reflexivity|]. split.
  { unfold step. rewrite step_with_eq. cbv zeta.
    case_alpha; reflexivity. }
  unfold step. apply step_with_fst.
Qed.

End SchemeProperties.

(** ** What a failed step and a first step touch *)

(** Two [double]s that differ are told apart by a test on the first. *)
Lemma double_neq (a b : double) : (a =? b)%float = false -> (a =? a)%float = true -> a <> b.
Proof. intros Hab Haa E. rewrite <- E, Haa in Hab. discriminate. Qed.

(** C9. A failed call of [step] is not free of effects: it has moved the
    old [grad] into [lastGrad], set [grad] to [gradient(x)], recomputed
    [velocity] (and [ptLastVel] when [n > 0]) and rebound the geodesic to
    [(x, velocity)]; [x] and [lastX] are as before. On the plane, the second
    step of the run from [(3, 4)] on [sphere] fails and changes each of
    [lastGrad], [grad], [velocity], [ptLastVel], the geodesic and the line
    search. *)
Theorem failed_step_effects :
  (forall (Point Vector G LS : Type) (VO : VectorOps Vector)
          (GO : Geodesic.Ops G Point Vector) (LO : LineSearch.Ops LS)
          (sch : Scheme) (cost : Point -> double) (gradient : Point -> Vector)
          (s : ConjugateGradient Point Vector G LS),
      fst (step sch cost gradient s) = false ->
      let s' := snd (step sch cost gradient s) in
      lastGrad s' = grad s /\
      grad s' = gradient (x s) /\
      velocity s' =
        (if 0 <? n s
         then vadd (vneg (grad s'))
                   (vscale (transported_velocity s)
                           (modifier sch (at_modifier gradient s)))
         else vneg (grad s')) /\
      (0 < n s -> ptLastVel s' = transported_velocity s) /\
      geodesic s' = Geodesic.set (geodesic s) (x s) (velocity s') /\
      x s' = x s /\
      lastX s' = lastX s) /\
  (let s := Euclid.after_first in
   let r := @step _ _ _ _ Euclid.vec2_ops Euclid.line_ops Euclid.secant_search
                  HestenesStiefel Euclid.sphere Euclid.sphere_grad s in
   fst r = false /\
   lastGrad (snd r) <> lastGrad s /\
   grad (snd r) <> grad s /\
   velocity (snd r) <> velocity s /\
   ptLastVel (snd r) <> ptLastVel s /\
   geodesic (snd r) <> geodesic s /\
   lineSearch (snd r) <> lineSearch s /\
   x (snd r) = x s /\
   lastX (snd r) = lastX s).
Proof.
  split.
  - intros Point Vector G LS VO GO LO sch cost gradient s Hfail. cbv zeta.
    revert Hfail. unfold step.
    rewrite step_with_eq, step_direction_eq. cbv zeta.
    case_alpha; cbn [fst snd]; [intros _ | discriminate].
    destruct (0 <? n s) eqn:Hn; cbn.
    + repeat split; reflexivity.
    + repeat split; try reflexivity.
      intros Hpos. apply Z.ltb_lt in Hpos. congruence.
  - cbv zeta. split; [vm_compute; reflexivity|].
    repeat split; try (vm_compute; reflexivity).
    + intros E. apply (f_equal fst) in E. vm_compute in E.
      revert E. apply double_neq; reflexivity.
    + intros E. apply (f_equal fst) in E. vm_compute in E.
      revert E. apply double_neq; reflexivity.
    + intros E. apply (f_equal fst) in E. vm_compute in E.
      revert E. apply double_neq; reflexivity.
    + intros E. apply (f_equal fst) in E. vm_compute in E.
      revert E. apply double_neq; reflexivity.
    + intros E. apply (f_equal (fun g => fst (Euclid.origin g))) in E.
      vm_compute in E. revert E. apply double_neq; reflexivity.
    + intros E. vm_compute in E. revert E. apply double_neq; reflexivity.
Qed.

(** C10. On the first iteration ([n = 0]) [step] does not call
    [modifier] and reads none of [lastX], [lastGrad], [ptLastVel] and the
    line search's stored [alpha]: replacing the modifier, the [alpha]
    accessor and the three members by anything else changes neither the
    answer of [step] nor any member it writes. [lastX] (on failure) and
    [ptLastVel] are carried over, not read. *)
Theorem first_step_ignores_history :
  forall (Point Vector G LS : Type) (VO : VectorOps Vector)
         (GO : Geodesic.Ops G Point Vector) (LO : LineSearch.Ops LS)
         (alpha' : LS -> double)
         (beta beta' : ConjugateGradient Point Vector G LS -> double)
         (cost : Point -> double) (gradient : Point -> Vector)
         (s : ConjugateGradient Point Vector G LS)
         (lastX' : Point) (lastGrad' ptLastVel' : Vector),
    n s = 0 ->
    let t := set_ptLastVel ptLastVel' (set_lastGrad lastGrad' (set_lastX lastX' s)) in
    let r := @step_with _ _ _ _ VO GO LO beta cost gradient s in
    let r' := @step_with _ _ _ _ VO GO (LineSearch.with_alpha alpha' LO)
                         beta' cost gradient t in
    fst r' = fst r /\
    x (snd r') = x (snd r) /\
    grad (snd r') = grad (snd r) /\
    lastGrad (snd r') = lastGrad (snd r) /\
    velocity (snd r') = velocity (snd r) /\
    geodesic (snd r') = geodesic (snd r) /\
    lineSearch (snd r') = lineSearch (snd r) /\
    n (snd r') = n (snd r) /\
    maxSteps (snd r') = maxSteps (snd r) /\
    (fst r = true -> lastX (snd r') = lastX (snd r)) /\
    (fst r = false -> lastX (snd r) = lastX s /\ lastX (snd r') = lastX') /\
    ptLastVel (snd r) = ptLastVel s /\
    ptLastVel (snd r') = ptLastVel'.
Proof.
  intros Point Vector G LS VO GO LO alpha' beta beta' cost gradient s
         lastX' lastGrad' ptLastVel' Hn.
  cbv zeta. rewrite !step_with_eq, !step_direction_eq. cbv zeta.
  cbn [n x metric geodesic lineSearch grad set_ptLastVel set_lastGrad set_lastX
       maxSteps lastX lastGrad velocity ptLastVel].
  rewrite Hn. change (0 <? 0) with false. cbv iota.
  unfold step_search, search_value, search_derivative.
  cbn [n x metric geodesic lineSearch grad maxSteps lastX lastGrad velocity
       ptLastVel LineSearch.search LineSearch.with_alpha].
  case_alpha; cbn [fst snd n x metric geodesic lineSearch grad maxSteps lastX lastGrad
         velocity ptLastVel set_lineSearch];
    repeat split; try reflexivity; try discriminate.
Qed.

(** ** Properties of [optimize] *)

(** A [double] above zero fails the test [alpha <= 0.0]. *)
Lemma positive_not_le_zero (a : double) :
  (0 <? a)%float = true -> (a <=? 0)%float = false.
Proof.
  rewrite ltb_spec, leb_spec. unfold SFltb, SFleb.
  change (Prim2SF 0) with (S754_zero false).
  destruct (Prim2SF a) as [sg | [|] | | [|] m e]; simpl;
    try discriminate; reflexivity.
Qed.

Section OptimizeProperties.

Context {Point Vector G LS : Type}.
Context {VO : VectorOps Vector}.
Context {GO : Geodesic.Ops G Point Vector}.
Context {LO : LineSearch.Ops LS}.

Abbreviation CG := (ConjugateGradient Point Vector G LS).

Variable sch : Scheme.
Variable cost : Point -> double.
Variable gradient : Point -> Vector.

Lemma set_n_same (s : CG) : set_n (n s) s = s.
Proof. destruct s; reflexivity. Qed.

Lemma set_n_set_n (i j : Z) (s : CG) : set_n i (set_n j s) = set_n i s.
Proof. reflexivity. Qed.

Lemma step_n (s : CG) : n (snd (step sch cost gradient s)) = n s.
Proof. apply step_with_n. Qed.

Lemma step_maxSteps (s : CG) :
  maxSteps (snd (step sch cost gradient s)) = maxSteps s.
Proof. apply step_with_maxSteps. Qed.

Lemma step_metric (s : CG) : metric (snd (step sch cost gradient s)) = metric s.
Proof. apply step_with_metric. Qed.

Lemma step_fst (s : CG) :
  fst (step sch cost gradient s) = negb (step_alpha sch cost gradient s <=? 0)%float.
Proof. apply step_with_fst. Qed.

(** A failed step leaves [x] and [lastX] alone. *)
Lemma step_failed_position (s : CG) :
  fst (step sch cost gradient s) = false ->
  x (snd (step sch cost gradient s)) = x s /\
  lastX (snd (step sch cost gradient s)) = lastX s.
Proof.
  unfold step. rewrite step_with_eq, step_direction_eq. cbv zeta.
  case_alpha; cbn [fst snd]; [intros _; split; reflexivity | discriminate].
Qed.

(** The plain loop is the collecting loop with the calls dropped. *)
Lemma optimize_loop_erase (fuel : nat) :
  forall s : CG,
    optimize_loop sch cost gradient fuel s =
      option_map snd (optimize_loop_calls sch cost gradient fuel s).
Proof.
  induction fuel as [|fuel IH]; intros s; [reflexivity|].
  cbn [optimize_loop optimize_loop_calls].
  destruct (n s <? maxSteps s); [|reflexivity].
  destruct (step sch cost gradient s) as [ok s1].
  destruct ok; [|reflexivity].
  rewrite IH.
  destruct (optimize_loop_calls sch cost gradient fuel (set_n (uint32 (n s1 + 1)) s1))
    as [[calls r]|]; reflexivity.
Qed.

(** The point [iterate_steps] ends on does not depend on the index its
    argument holds: every call overwrites it. *)
Lemma iterate_steps_set_n (k : nat) :
  forall (i j : Z) (s : CG),
    x (iterate_steps sch cost gradient k i (set_n j s)) =
    x (iterate_steps sch cost gradient k i s).
Proof.
  destruct k as [|k]; intros i j s; [reflexivity|].
  cbn [iterate_steps]. rewrite set_n_set_n. reflexivity.
Qed.

(** The loop entered with [k] iterations left before the cap. *)
Lemma optimize_loop_run (k : nat) :
  forall (fuel : nat) (s : CG),
    0 <= n s -> n s <= maxSteps s -> maxSteps s < uint32_max ->
    Z.to_nat (maxSteps s - n s) = k ->
    (k < fuel)%nat ->
    exists (calls : list CG) (s' : CG),
      optimize_loop_calls sch cost gradient fuel s = Some (calls, s') /\
      x s' = x (iterate_steps sch cost gradient k (n s) s) /\
      (length calls <= k)%nat /\
      maxSteps s' = maxSteps s /\
      ((forall c, In c calls -> (0 <? step_alpha sch cost gradient c)%float = true) ->
       length calls = k /\ n s' = maxSteps s).
Proof.
  induction k as [|k IH]; intros fuel s Hn0 Hn Hmax Hk Hfuel;
    (destruct fuel as [|fuel]; [lia|]); cbn [optimize_loop_calls].
  - assert (Hlt : (n s <? maxSteps s) = false) by (apply Z.ltb_ge; lia).
    rewrite Hlt. exists [], s. cbn. repeat split; try reflexivity; lia.
  - assert (Hlt : (n s <? maxSteps s) = true) by (apply Z.ltb_lt; lia).
    rewrite Hlt. cbn [iterate_steps]. rewrite set_n_same.
    pose proof (step_n s) as Hsn. pose proof (step_maxSteps s) as Hsm.
    pose proof (step_fst s) as Hsf.
    destruct (step sch cost gradient s) as [ok s1]. cbn [fst snd] in *.
    destruct ok.
    + assert (Hwrap : uint32 (n s1 + 1) = n s + 1).
      { unfold uint32. rewrite Hsn. apply Z.mod_small. lia. }
      rewrite Hwrap.
      destruct (IH fuel (set_n (n s + 1) s1)) as (calls & s' & Hrun & Hx & Hlen & Hm & Hall);
        cbn [n maxSteps set_n]; try lia.
      rewrite Hrun. exists (s :: calls), s'.
      cbn [n set_n] in Hx. rewrite iterate_steps_set_n in Hx.
      cbn [maxSteps set_n] in Hm, Hall.
      split; [reflexivity|]. split; [exact Hx|].
      split; [cbn; lia|]. split; [congruence|].
      intros Hpos.
      destruct Hall as [Hl Hn']. { intros c Hc. apply Hpos. right. exact Hc. }
      split; [cbn; lia | congruence].
    + exists [s], s1. split; [reflexivity|]. split; [reflexivity|].
      split; [cbn; lia|]. split; [exact Hsm|].
      intros Hpos. specialize (Hpos s (or_introl eq_refl)).
      apply positive_not_le_zero in Hpos. rewrite Hpos in Hsf. discriminate.
Qed.

(** C2. [optimize(initial, cost, gradient)] sets [x] to [initial], resets
    the line search, calls [step] while [n < maxSteps] and the previous
    call succeeded, stops at the first call that fails, and returns the
    final [x]: with fuel above [maxSteps] it returns the point described by
    [optimize_spec]. *)
Theorem optimize_refines_spec (initial : Point) (s : CG) (fuel : nat) :
  is_uint32 (maxSteps s) ->
  (Z.to_nat (maxSteps s) < fuel)%nat ->
  x (optimize_init initial s) = initial /\
  lineSearch (optimize_init initial s) = LineSearch.reset (lineSearch s) /\
  n (optimize_init initial s) = 0 /\
  exists s' : CG,
    optimize sch cost gradient fuel initial s =
      Some (optimize_spec sch cost gradient initial s, s') /\
    x s' = optimize_spec sch cost gradient initial s.
Proof.
  intros [Hlo Hhi] Hfuel.
  split; [reflexivity|]. split; [reflexivity|]. split; [reflexivity|].
  destruct (optimize_loop_run (Z.to_nat (maxSteps s)) fuel (optimize_init initial s))
    as (calls & s' & Hrun & Hx & _); cbn [n maxSteps optimize_init set_n set_lineSearch set_x];
    try lia.
  exists s'. unfold optimize. rewrite optimize_loop_erase, Hrun. cbn [option_map snd].
  unfold optimize_init in Hx. cbn [n set_n] in Hx.
  rewrite iterate_steps_set_n in Hx.
  assert (Hx' : x s' = optimize_spec sch cost gradient initial s) by exact Hx.
  rewrite Hx'. split; reflexivity.
Qed.

(** C7. [optimize] ends after at most [maxSteps] calls of [step]; when
    the line search answers a positive [alpha] at every call, it makes
    exactly [maxSteps] calls and leaves [n = maxSteps]. *)
Theorem optimize_terminates (initial : Point) (s : CG) :
  is_uint32 (maxSteps s) ->
  exists (calls : list CG) (s' : CG),
    optimize_calls sch cost gradient (S (Z.to_nat (maxSteps s))) initial s =
      Some (calls, s') /\
    optimize sch cost gradient (S (Z.to_nat (maxSteps s))) initial s =
      Some (x s', s') /\
    (length calls <= Z.to_nat (maxSteps s))%nat /\
    ((forall c, In c calls -> (0 <? step_alpha sch cost gradient c)%float = true) ->
     length calls = Z.to_nat (maxSteps s) /\ n s' = maxSteps s).
Proof.
  intros [Hlo Hhi].
  destruct (optimize_loop_run (Z.to_nat (maxSteps s)) (S (Z.to_nat (maxSteps s)))
              (optimize_init initial s))
    as (calls & s' & Hrun & _ & Hlen & Hm & Hall);
    cbn [n maxSteps optimize_init set_n set_lineSearch set_x]; try lia.
  exists calls, s'. unfold optimize_calls, optimize.
  rewrite optimize_loop_erase, Hrun. cbn [option_map snd].
  split; [reflexivity|]. split; [reflexivity|]. split; [exact Hlen|].
  exact Hall.
Qed.

Lemma last_cons {A : Type} (l : list A) :
  forall a d : A, last (a :: l) d = last l a.
Proof.
  induction l as [|b l IH]; intros a d; [reflexivity|].
  change (last (a :: b :: l) d) with (last (b :: l) d).
  rewrite !IH. reflexivity.
Qed.

(** A failing call is the last call of the loop, and the loop ends on the
    point held before it. *)
Lemma optimize_loop_failure (fuel : nat) :
  forall (s : CG) (calls : list CG) (s' : CG),
    optimize_loop_calls sch cost gradient fuel s = Some (calls, s') ->
    forall (pre : list CG) (c : CG) (post : list CG),
      calls = pre ++ c :: post ->
      fst (step sch cost gradient c) = false ->
      post = [] /\ x s' = x c /\
      x c = last (visited sch cost gradient pre) (x s).
Proof.
  induction fuel as [|fuel IH]; intros s calls s' Hrun pre c post Hcalls Hfail;
    [discriminate|].
  cbn [optimize_loop_calls] in Hrun.
  destruct (n s <? maxSteps s).
  2:{ injection Hrun as <- <-. destruct pre; discriminate. }
  pose proof (step_failed_position s) as Hpos.
  destruct (step sch cost gradient s) as [ok s1] eqn:Hstep. cbn [fst snd] in Hpos.
  destruct ok.
  - destruct (optimize_loop_calls sch cost gradient fuel (set_n (uint32 (n s1 + 1)) s1))
      as [[calls' r]|] eqn:Hrec; [|discriminate].
    injection Hrun as <- <-.
    destruct pre as [|p pre].
    + cbn in Hcalls. injection Hcalls as <- _.
      rewrite Hstep in Hfail. discriminate.
    + cbn in Hcalls. injection Hcalls as <- Hcalls.
      destruct (IH _ _ _ Hrec pre c post Hcalls Hfail) as (Hpost & Hx & Hlast).
      split; [exact Hpost|]. split; [exact Hx|].
      cbn [visited map]. rewrite last_cons, Hstep. exact Hlast.
  - injection Hrun as <- <-.
    destruct pre as [|p pre].
    + cbn in Hcalls. injection Hcalls as <- <-.
      split; [reflexivity|]. split; [apply Hpos; reflexivity | reflexivity].
    + cbn in Hcalls. injection Hcalls as _ Hcalls. destruct pre; discriminate.
Qed.

(** C3. Whenever the line search returns [alpha <= 0], [step] reports
    failure with [x] and [lastX] as they were before the call; [optimize]
    then makes no further call and returns the point reached by the last
    successful step (the initial point when there is none). *)
Theorem failed_step_stops_run :
  (forall s : CG,
      (step_alpha sch cost gradient s <=? 0)%float = true ->
      fst (step sch cost gradient s) = false /\
      x (snd (step sch cost gradient s)) = x s /\
      lastX (snd (step sch cost gradient s)) = lastX s) /\
  (forall (fuel : nat) (initial : Point) (s : CG) (calls : list CG) (s' : CG),
      optimize_calls sch cost gradient fuel initial s = Some (calls, s') ->
      forall (pre : list CG) (c : CG) (post : list CG),
        calls = pre ++ c :: post ->
        (step_alpha sch cost gradient c <=? 0)%float = true ->
        post = [] /\
        optimize sch cost gradient fuel initial s = Some (x c, s') /\
        x c = last (visited sch cost gradient pre) initial).
Proof.
  split.
  - intros s Hle.
    assert (Hfail : fst (step sch cost gradient s) = false)
      by (rewrite step_fst, Hle; reflexivity).
    split; [exact Hfail|]. apply step_failed_position, Hfail.
  - intros fuel initial s calls s' Hrun pre c post Hcalls Hle.
    assert (Hfail : fst (step sch cost gradient c) = false)
      by (rewrite step_fst, Hle; reflexivity).
    unfold optimize_calls in Hrun.
    destruct (optimize_loop_failure fuel _ _ _ Hrun pre c post Hcalls Hfail)
      as (Hpost & Hx & Hlast).
    split; [exact Hpost|]. split; [|exact Hlast].
    unfold optimize. rewrite optimize_loop_erase, Hrun. cbn [option_map snd].
    rewrite Hx. reflexivity.
Qed.

(** [optimize] writes neither [metric] nor [maxSteps]. *)
Lemma optimize_loop_frame (fuel : nat) :
  forall (s : CG) (calls : list CG) (s' : CG),
    optimize_loop_calls sch cost gradient fuel s = Some (calls, s') ->
    metric s' = metric s /\ maxSteps s' = maxSteps s.
Proof.
  induction fuel as [|fuel IH]; intros s calls s' Hrun; [discriminate|].
  cbn [optimize_loop_calls] in Hrun.
  destruct (n s <? maxSteps s).
  2:{ injection Hrun as _ <-. split; reflexivity. }
  pose proof (step_metric s) as Hm. pose proof (step_maxSteps s) as Hc.
  destruct (step sch cost gradient s) as [ok s1]. cbn [snd] in Hm, Hc.
  destruct ok.
  - destruct (optimize_loop_calls sch cost gradient fuel (set_n (uint32 (n s1 + 1)) s1))
      as [[calls' r]|] eqn:Hrec; [|discriminate].
    injection Hrun as _ <-.
    destruct (IH _ _ _ Hrec) as [Hm' Hc']. cbn [metric maxSteps set_n] in Hm', Hc'.
    split; congruence.
  - injection Hrun as _ <-. split; assumption.
Qed.

Section Reruns.

(** What the collaborators promise: [reset()] clears what a search has
    left in the line search, and [set(p, v)] rebinds the geodesic, whatever
    it was bound to by an earlier [set]. *)
Hypothesis reset_forgets_search :
  forall (l : LS) (f df : double -> double),
    LineSearch.reset (snd (LineSearch.search l f df)) = LineSearch.reset l.
Hypothesis reset_idempotent :
  forall l : LS, LineSearch.reset (LineSearch.reset l) = LineSearch.reset l.
Hypothesis set_overrides :
  forall (g : G) (p p' : Point) (v v' : Vector),
    Geodesic.set (Geodesic.set g p v) p' v' = Geodesic.set g p' v'.

(** A step leaves a line search that resets to what it would have reset to
    before, and a geodesic that rebinds to what it would have rebound to. *)
Lemma step_keeps_contracts (s : CG) :
  LineSearch.reset (lineSearch (snd (step sch cost gradient s))) =
    LineSearch.reset (lineSearch s) /\
  (forall (p : Point) (v : Vector),
      Geodesic.set (geodesic (snd (step sch cost gradient s))) p v =
      Geodesic.set (geodesic s) p v).
Proof.
  unfold step. rewrite step_with_eq, step_direction_eq. cbv zeta.
  unfold step_search. cbn [lineSearch].
  case_alpha; cbn [snd lineSearch geodesic set_lineSearch];
    (split; [apply reset_forgets_search | intros p v; apply set_overrides]).
Qed.

Lemma optimize_loop_keeps_contracts (fuel : nat) :
  forall (s : CG) (calls : list CG) (s' : CG),
    optimize_loop_calls sch cost gradient fuel s = Some (calls, s') ->
    LineSearch.reset (lineSearch s') = LineSearch.reset (lineSearch s) /\
    (forall (p : Point) (v : Vector),
        Geodesic.set (geodesic s') p v = Geodesic.set (geodesic s) p v).
Proof.
  induction fuel as [|fuel IH]; intros s calls s' Hrun; [discriminate|].
  cbn [optimize_loop_calls] in Hrun.
  destruct (n s <? maxSteps s).
  2:{ injection Hrun as _ <-. split; reflexivity. }
  destruct (step_keeps_contracts s) as [Hl Hg].
  destruct (step sch cost gradient s) as [ok s1]. cbn [snd] in Hl, Hg.
  destruct ok.
  - destruct (optimize_loop_calls sch cost gradient fuel (set_n (uint32 (n s1 + 1)) s1))
      as [[calls' r]|] eqn:Hrec; [|discriminate].
    injection Hrun as _ <-.
    destruct (IH _ _ _ Hrec) as [Hl' Hg']. cbn [lineSearch geodesic set_n] in Hl', Hg'.
    split; [congruence|]. intros p v. rewrite Hg'. apply Hg.
  - injection Hrun as _ <-. split; assumption.
Qed.

(** The step with [n = 0] from two instances that agree on [metric],
    [maxSteps], [x] and the line search, and whose geodesics rebind alike. *)
Lemma first_step_simulation (s t : CG) :
  n s = 0 -> n t = 0 ->
  metric s = metric t -> maxSteps s = maxSteps t ->
  x s = x t -> lineSearch s = lineSearch t ->
  (forall (p : Point) (v : Vector),
      Geodesic.set (geodesic s) p v = Geodesic.set (geodesic t) p v) ->
  fst (step sch cost gradient s) = fst (step sch cost gradient t) /\
  x (snd (step sch cost gradient s)) = x (snd (step sch cost gradient t)) /\
  (fst (step sch cost gradient s) = true ->
   same_but_history (snd (step sch cost gradient s))
                    (snd (step sch cost gradient t))).
Proof.
  destruct s as [ms gs ls ns cs xs lxs grs lgs vs pvs].
  destruct t as [mt gt lt nt ct xt lxt grt lgt vt pvt].
  cbn [n metric maxSteps x lineSearch geodesic].
  intros -> -> -> -> -> -> Hgeo.
  unfold step. rewrite !step_with_eq, !step_direction_eq. cbv zeta.
  cbn [n metric maxSteps x lineSearch geodesic lastX grad lastGrad velocity ptLastVel].
  change (0 <? 0) with false. cbv iota.
  rewrite Hgeo.
  unfold step_search, search_value, search_derivative.
  cbn [n metric maxSteps x lineSearch geodesic lastX grad lastGrad velocity ptLastVel].
  case_alpha; cbn [fst snd x set_lineSearch].
  - split; [reflexivity|]. split; [reflexivity|]. discriminate.
  - split; [reflexivity|]. split; [reflexivity|]. intros _.
    unfold same_but_history. cbn. repeat split; reflexivity.
Qed.

(** A step with [n > 0] reads neither [lastGrad] nor [ptLastVel]. *)
Lemma later_step_simulation (s t : CG) :
  same_but_history s t -> 0 < n s ->
  step sch cost gradient s = step sch cost gradient t.
Proof.
  destruct s as [ms gs ls ns cs xs lxs grs lgs vs pvs].
  destruct t as [mt gt lt nt ct xt lxt grt lgt vt pvt].
  unfold same_but_history.
  cbn [n metric maxSteps x lineSearch geodesic lastX grad velocity].
  intros (-> & -> & -> & -> & -> & -> & -> & -> & ->) Hn.
  apply Z.ltb_lt in Hn.
  unfold step. rewrite !step_with_eq, !step_direction_eq. cbv zeta.
  cbn [n metric maxSteps x lineSearch geodesic lastX grad lastGrad velocity ptLastVel].
  rewrite Hn. reflexivity.
Qed.

Lemma later_loop_simulation (fuel : nat) (s t : CG) :
  same_but_history s t -> 0 < n s ->
  forall (calls : list CG) (s' : CG),
    optimize_loop_calls sch cost gradient fuel s = Some (calls, s') ->
    exists (calls2 : list CG) (t' : CG),
      optimize_loop_calls sch cost gradient fuel t = Some (calls2, t') /\
      visited sch cost gradient calls2 = visited sch cost gradient calls /\
      x t' = x s'.
Proof.
  intros Hst Hn calls s' Hrun.
  pose proof (later_step_simulation s t Hst Hn) as Hstep.
  destruct Hst as (_ & _ & _ & Hnn & Hcc & Hxx & _).
  destruct fuel as [|fuel]; [discriminate|].
  cbn [optimize_loop_calls] in Hrun |- *.
  rewrite <- Hnn, <- Hcc.
  destruct (n s <? maxSteps s).
  2:{ injection Hrun as <- <-. exists [], t. repeat split; congruence. }
  rewrite <- Hstep.
  destruct (step sch cost gradient s) as [ok s1] eqn:Hs.
  destruct ok.
  - destruct (optimize_loop_calls sch cost gradient fuel (set_n (uint32 (n s1 + 1)) s1))
      as [[calls' r]|]; [|discriminate].
    injection Hrun as <- <-. exists (t :: calls'), r.
    split; [reflexivity|]. split; [|reflexivity].
    cbn [visited map]. rewrite <- Hstep, Hs. reflexivity.
  - injection Hrun as <- <-. exists [t], s1.
    split; [reflexivity|]. split; [|reflexivity].
    cbn [visited map]. rewrite <- Hstep, Hs. reflexivity.
Qed.

(** Two runs from the same initial point, on instances with the same
    metric and cap whose line searches reset alike and whose geodesics
    rebind alike, visit the same points. *)
Lemma optimize_simulation (fuel : nat) (initial : Point) (s t : CG) :
  metric s = metric t -> maxSteps s = maxSteps t ->
  LineSearch.reset (lineSearch s) = LineSearch.reset (lineSearch t) ->
  (forall (p : Point) (v : Vector),
      Geodesic.set (geodesic s) p v = Geodesic.set (geodesic t) p v) ->
  forall (calls : list CG) (s' : CG),
    optimize_calls sch cost gradient fuel initial s = Some (calls, s') ->
    exists (calls2 : list CG) (t' : CG),
      optimize_calls sch cost gradient fuel initial t = Some (calls2, t') /\
      visited sch cost gradient calls2 = visited sch cost gradient calls /\
      x t' = x s'.
Proof.
  intros Hm Hc Hl Hg calls s' Hrun. unfold optimize_calls in *.
  set (s0 := optimize_init initial s) in *.
  set (t0 := optimize_init initial t).
  assert (Hfirst := first_step_simulation s0 t0 eq_refl eq_refl Hm Hc eq_refl Hl Hg).
  destruct Hfirst as (Hok & Hx & Hsame).
  destruct fuel as [|fuel]; [discriminate|].
  cbn [optimize_loop_calls] in Hrun |- *.
  change (n s0) with 0 in *. change (n t0) with 0.
  change (maxSteps s0) with (maxSteps s) in *.
  change (maxSteps t0) with (maxSteps t). rewrite <- Hc.
  destruct (0 <? maxSteps s).
  2:{ injection Hrun as <- <-. exists [], t0. repeat split; reflexivity. }
  pose proof (step_n s0) as Hns. pose proof (step_n t0) as Hnt.
  destruct (step sch cost gradient s0) as [ok s1] eqn:Hs.
  destruct (step sch cost gradient t0) as [ok' t1] eqn:Ht.
  cbn [fst snd] in Hok, Hx, Hsame, Hns, Hnt. subst ok'.
  change (n s0) with 0 in Hns. change (n t0) with 0 in Hnt.
  destruct ok.
  - rewrite Hns in Hrun. rewrite Hnt.
    change (uint32 (0 + 1)) with 1 in *.
    destruct (optimize_loop_calls sch cost gradient fuel (set_n 1 s1))
      as [[calls' r]|] eqn:Hrec; [|discriminate].
    injection Hrun as <- <-.
    assert (Hrel : same_but_history (set_n 1 s1) (set_n 1 t1)).
    { destruct (Hsame eq_refl) as (H1 & H2 & H3 & H4 & H5 & H6 & H7 & H8 & H9).
      unfold same_but_history. cbn. repeat split; assumption. }
    destruct (later_loop_simulation fuel _ _ Hrel ltac:(cbn; lia) _ _ Hrec)
      as (calls2 & t' & Hrun2 & Hvis & Hxt).
    rewrite Hrun2. exists (t0 :: calls2), t'.
    split; [reflexivity|]. split; [|exact Hxt].
    cbn [visited map]. rewrite Hs, Ht. cbn [snd].
    change (map (fun c : CG => x (snd (step sch cost gradient c))) calls2)
      with (visited sch cost gradient calls2).
    change (map (fun c : CG => x (snd (step sch cost gradient c))) calls')
      with (visited sch cost gradient calls').
    rewrite Hvis, Hx. reflexivity.
  - injection Hrun as <- <-. exists [t0], t1.
    split; [reflexivity|]. split; [|symmetry; exact Hx].
    cbn [visited map]. rewrite Hs, Ht. cbn [snd]. rewrite Hx. reflexivity.
Qed.

(** C8. Calling [optimize] a second time on the same instance, with the
    same initial point, cost and gradient, visits the same points and
    returns the same point as the first call, although [optimize] resets
    only [x], [n] and the line search and leaves [grad], [lastGrad],
    [lastX], [velocity] and [ptLastVel] as the first run left them. *)
Theorem optimize_twice_same_trajectory
        (fuel : nat) (initial : Point) (s : CG) (calls1 : list CG) (s1 : CG) :
  optimize_calls sch cost gradient fuel initial s = Some (calls1, s1) ->
  (let t := optimize_init initial s1 in
   x t = initial /\ n t = 0 /\
   lineSearch t = LineSearch.reset (lineSearch s1) /\
   grad t = grad s1 /\ lastGrad t = lastGrad s1 /\ lastX t = lastX s1 /\
   velocity t = velocity s1 /\ ptLastVel t = ptLastVel s1) /\
  exists (calls2 : list CG) (s2 : CG),
    optimize_calls sch cost gradient fuel initial s1 = Some (calls2, s2) /\
    visited sch cost gradient calls2 = visited sch cost gradient calls1 /\
    optimize sch cost gradient fuel initial s = Some (x s1, s1) /\
    optimize sch cost gradient fuel initial s1 = Some (x s1, s2).
Proof.
  intros Hrun.
  split; [cbv zeta; repeat split; reflexivity|].
  destruct (optimize_loop_frame fuel _ _ _ Hrun) as [Hm Hc].
  destruct (optimize_loop_keeps_contracts fuel _ _ _ Hrun) as [Hl Hg].
  cbn [metric maxSteps lineSearch geodesic optimize_init set_n set_lineSearch set_x]
    in Hm, Hc, Hl, Hg.
  rewrite reset_idempotent in Hl.
  assert (Hg' : forall (p : Point) (v : Vector),
             Geodesic.set (geodesic s) p v = Geodesic.set (geodesic s1) p v)
    by (intros p v; symmetry; apply Hg).
  destruct (optimize_simulation fuel initial s s1 (eq_sym Hm) (eq_sym Hc) (eq_sym Hl)
              Hg' _ _ Hrun)
    as (calls2 & s2 & Hrun2 & Hvis & Hx).
  exists calls2, s2.
  split; [exact Hrun2|]. split; [exact Hvis|].
  unfold optimize, optimize_calls in *.
  rewrite !optimize_loop_erase, Hrun, Hrun2. cbn [option_map snd].
  rewrite Hx. split; reflexivity.
Qed.

End Reruns.

End OptimizeProperties.

(** ** The run of section 8 on the plane, and instances of the theorems *)

Import Euclid.
#[local] Existing Instance secant_search.

(** From [(3, 4)] on [sphere] with Hestenes-Stiefel: the first velocity is
    [(-6, -8)], the first step lands on [(0, 0)], the second step finds no
    improving step size, and [(0, 0)] is returned. *)
Example sphere_run :
  start = optimize_init (3, 4)%float (fresh 10) /\
  velocity (snd (step HestenesStiefel sphere sphere_grad start)) = (-6, -8)%float /\
  step_alpha HestenesStiefel sphere sphere_grad start = 0.5%float /\
  x (snd (step HestenesStiefel sphere sphere_grad start)) = (0, 0)%float /\
  set_n 1 (snd (step HestenesStiefel sphere sphere_grad start)) = after_first /\
  fst (step HestenesStiefel sphere sphere_grad after_first) = false /\
  optimize_calls HestenesStiefel sphere sphere_grad 11 (3, 4)%float (fresh 10) =
    Some ([start; after_first],
          snd (step HestenesStiefel sphere sphere_grad after_first)) /\
  option_map fst
    (optimize HestenesStiefel sphere sphere_grad 11 (3, 4)%float (fresh 10)) =
    Some (0, 0)%float.
Proof. repeat split; vm_compute; reflexivity. Qed.

(** The value and derivative functions seen by a line search that probes
    them at [t = 0.25] on the first step from [(3, 4)]: the cost at
    [(1.5, 2)] and the inner product of the gradient [(3, 4)] there with the
    velocity [(-6, -8)]. *)
Example sphere_probe :
  lineSearch (snd (step (LO := probe_search 0.25) HestenesStiefel sphere sphere_grad
                        probing)) =
    (6.25, -50)%float.
Proof. vm_compute. reflexivity. Qed.

Lemma step_velocity_witness :
  (n start = 0 /\
   let s' := snd (step HestenesStiefel sphere sphere_grad start) in
   grad s' = sphere_grad (x start) /\ velocity s' = vneg (grad s')) /\
  (0 < n after_first /\
   let s' := snd (step HestenesStiefel sphere sphere_grad after_first) in
   grad s' = sphere_grad (x after_first) /\
   ptLastVel s' = transported_velocity after_first /\
   velocity s' =
     vadd (vneg (grad s'))
          (vscale (ptLastVel s')
                  (modifier HestenesStiefel (at_modifier sphere_grad after_first)))).
Proof.
  split.
  - split; [reflexivity|].
    apply (proj1 (step_velocity HestenesStiefel sphere sphere_grad) start).
    reflexivity.
  - split; [reflexivity|].
    apply (proj2 (step_velocity HestenesStiefel sphere sphere_grad) after_first).
    reflexivity.
Defined.

Lemma optimize_refines_spec_witness :
  is_uint32 (maxSteps (fresh 10)) /\
  (Z.to_nat (maxSteps (fresh 10)) < 11)%nat /\
  exists s',
    optimize HestenesStiefel sphere sphere_grad 11 (3, 4)%float (fresh 10) =
      Some (optimize_spec HestenesStiefel sphere sphere_grad (3, 4)%float (fresh 10), s') /\
    x s' = optimize_spec HestenesStiefel sphere sphere_grad (3, 4)%float (fresh 10).
Proof.
  assert (Hcap : is_uint32 (maxSteps (fresh 10))) by (unfold is_uint32, uint32_max; cbn; lia).
  assert (Hfuel : (Z.to_nat (maxSteps (fresh 10)) < 11)%nat) by (vm_compute; lia).
  split; [exact Hcap|]. split; [exact Hfuel|].
  apply (optimize_refines_spec HestenesStiefel sphere sphere_grad
           (3, 4)%float (fresh 10) 11 Hcap Hfuel).
Defined.

Lemma failed_step_stops_run_witness :
  (step_alpha HestenesStiefel sphere sphere_grad after_first <=? 0)%float = true /\
  (fst (step HestenesStiefel sphere sphere_grad after_first) = false /\
   x (snd (step HestenesStiefel sphere sphere_grad after_first)) = x after_first /\
   lastX (snd (step HestenesStiefel sphere sphere_grad after_first)) = lastX after_first) /\
  ([] = @nil (ConjugateGradient vec2 vec2 Line double) /\
   optimize HestenesStiefel sphere sphere_grad 11 (3, 4)%float (fresh 10) =
     Some (x after_first, snd (step HestenesStiefel sphere sphere_grad after_first)) /\
   x after_first = last (visited HestenesStiefel sphere sphere_grad [start]) (3, 4)%float).
Proof.
  assert (Hle : (step_alpha HestenesStiefel sphere sphere_grad after_first <=? 0)%float = true)
    by (vm_compute; reflexivity).
  split; [exact Hle|]. split.
  - apply (proj1 (failed_step_stops_run (VO := vec2_ops) (GO := line_ops) (LO := secant_search)
                  HestenesStiefel sphere sphere_grad) after_first Hle).
  - assert (Hrun : optimize_calls HestenesStiefel sphere sphere_grad 11 (3, 4)%float
                      (fresh 10) =
                    Some ([start; after_first],
                          snd (step HestenesStiefel sphere sphere_grad after_first)))
      by (vm_compute; reflexivity).
    apply (proj2 (failed_step_stops_run (VO := vec2_ops) (GO := line_ops) (LO := secant_search)
                  HestenesStiefel sphere sphere_grad)
             11%nat (3, 4)%float (fresh 10) [start; after_first]
             (snd (step HestenesStiefel sphere sphere_grad after_first))
             Hrun [start] after_first [] eq_refl Hle).
Defined.

Lemma hestenes_stiefel_beta_witness :
  0 < n after_first /\
  let s' := snd (step DefaultScheme sphere sphere_grad after_first) in
  let ip := metric after_first (x after_first) in
  let ptlastGrad := transported_gradient after_first in
  let b := (inner ip (grad s') (vsub (grad s') ptlastGrad)
            / inner ip (ptLastVel s') (vsub (grad s') ptlastGrad))%float in
  grad s' = sphere_grad (x after_first) /\
  ptLastVel s' = transported_velocity after_first /\
  velocity s' = vadd (vneg (grad s')) (vscale (ptLastVel s') b).
Proof.
  assert (Hn : 0 < n after_first) by reflexivity.
  split; [exact Hn|].
  exact (proj2 (proj2 (hestenes_stiefel_beta (VO := vec2_ops) (GO := line_ops)
                         (LO := secant_search) sphere sphere_grad))
           after_first Hn).
Defined.

Lemma fletcher_reeves_beta_witness :
  0 < n after_first /\
  let s' := snd (step FletcherReeves sphere sphere_grad after_first) in
  let b := (norm2 (metric after_first (x after_first)) (grad s')
            / norm2 (metric after_first (lastX after_first)) (grad after_first))%float in
  grad s' = sphere_grad (x after_first) /\
  lastGrad s' = grad after_first /\
  velocity s' = vadd (vneg (grad s')) (vscale (ptLastVel s') b).
Proof.
  assert (Hn : 0 < n after_first) by reflexivity.
  split; [exact Hn|].
  exact (proj2 (fletcher_reeves_beta (VO := vec2_ops) (GO := line_ops)
                  (LO := secant_search) sphere sphere_grad)
           after_first Hn).
Defined.

(** On [slope] with a line search that always steps by [1], the run from
    [(3, 4)] with cap 3 under Fletcher-Reeves makes three calls and ends on [(-3, 4)]. *)
Lemma optimize_terminates_witness :
  is_uint32 (maxSteps (fresh 3)) /\
  exists calls s',
    optimize_calls (LO := unit_search) FletcherReeves slope slope_grad 4
                   (3, 4)%float (fresh 3) = Some (calls, s') /\
    (forall c, In c calls ->
               (0 <? step_alpha (LO := unit_search) FletcherReeves slope slope_grad c)%float
               = true) /\
    length calls = 3%nat /\
    n s' = 3 /\
    x s' = (-3, 4)%float.
Proof.
  assert (Hcap : is_uint32 (maxSteps (fresh 3)))
    by (unfold is_uint32, uint32_max; cbn; lia).
  split; [exact Hcap|].
  destruct (optimize_terminates (VO := vec2_ops) (GO := line_ops) (LO := unit_search)
              FletcherReeves slope slope_grad (3, 4)%float (fresh 3) Hcap)
    as (calls & s' & Hrun & Hopt & Hlen & Hall).
  assert (Hpos : forall c, In c calls ->
            (0 <? step_alpha (LO := unit_search) FletcherReeves slope slope_grad c)%float
            = true) by (intros c _; reflexivity).
  exists calls, s'.
  split; [exact Hrun|]. split; [exact Hpos|].
  destruct (Hall Hpos) as [Hcount Hn].
  split; [exact Hcount|]. split; [exact Hn|].
  vm_compute in Hopt. injection Hopt as Hx _. symmetry. exact Hx.
Defined.

Lemma optimize_twice_same_trajectory_witness :
  (forall (l : double) (f df : double -> double),
      LineSearch.reset (snd (LineSearch.search l f df)) = LineSearch.reset l) /\
  (forall l : double, LineSearch.reset (LineSearch.reset l) = LineSearch.reset l) /\
  (forall (g : Line) (p p' v v' : vec2),
      Geodesic.set (Geodesic.set g p v) p' v' = Geodesic.set g p' v') /\
  let s1 := snd (step HestenesStiefel sphere sphere_grad after_first) in
  optimize_calls HestenesStiefel sphere sphere_grad 11 (3, 4)%float (fresh 10) =
    Some ([start; after_first], s1) /\
  exists calls2 s2,
    optimize_calls HestenesStiefel sphere sphere_grad 11 (3, 4)%float s1 =
      Some (calls2, s2) /\
    visited HestenesStiefel sphere sphere_grad calls2 =
      visited HestenesStiefel sphere sphere_grad [start; after_first] /\
    optimize HestenesStiefel sphere sphere_grad 11 (3, 4)%float (fresh 10) =
      Some (x s1, s1) /\
    optimize HestenesStiefel sphere sphere_grad 11 (3, 4)%float s1 = Some (x s1, s2).
Proof.
  assert (Hforget : forall (l : double) (f df : double -> double),
             LineSearch.reset (snd (LineSearch.search l f df)) = LineSearch.reset l)
    by (intros l f df; reflexivity).
  assert (Hreset : forall l : double,
             LineSearch.reset (LineSearch.reset l) = LineSearch.reset l)
    by (intros l; reflexivity).
  assert (Hset : forall (g : Line) (p p' v v' : vec2),
             Geodesic.set (Geodesic.set g p v) p' v' = Geodesic.set g p' v')
    by (intros g p p' v v'; reflexivity).
  split; [exact Hforget|]. split; [exact Hreset|]. split; [exact Hset|]. cbv zeta.
  assert (Hrun : optimize_calls HestenesStiefel sphere sphere_grad 11 (3, 4)%float
                   (fresh 10) =
                 Some ([start; after_first],
                       snd (step HestenesStiefel sphere sphere_grad after_first)))
    by (vm_compute; reflexivity).
  split; [exact Hrun|].
  exact (proj2 (optimize_twice_same_trajectory (VO := vec2_ops) (GO := line_ops)
                  (LO := secant_search) HestenesStiefel sphere sphere_grad
                  Hforget Hreset Hset 11%nat (3, 4)%float (fresh 10) _ _ Hrun)).
Defined.

Lemma failed_step_effects_witness :
  fst (step HestenesStiefel sphere sphere_grad after_first) = false /\
  let s' := snd (step HestenesStiefel sphere sphere_grad after_first) in
  lastGrad s' = grad after_first /\
  grad s' = sphere_grad (x after_first) /\
  velocity s' =
    (if 0 <? n after_first
     then vadd (vneg (grad s'))
               (vscale (transported_velocity after_first)
                       (modifier HestenesStiefel (at_modifier sphere_grad after_first)))
     else vneg (grad s')) /\
  (0 < n after_first -> ptLastVel s' = transported_velocity after_first) /\
  geodesic s' = Geodesic.set (geodesic after_first) (x after_first) (velocity s') /\
  x s' = x after_first /\
  lastX s' = lastX after_first.
Proof.
  assert (Hfail : fst (step HestenesStiefel sphere sphere_grad after_first) = false)
    by (vm_compute; reflexivity).
  split; [exact Hfail|].
  exact (proj1 failed_step_effects vec2 vec2 Line double vec2_ops line_ops
           secant_search HestenesStiefel sphere sphere_grad after_first Hfail).
Defined.

(** The first step from [(3, 4)] is the same when the modifier would
    divide by zero, the [alpha] accessor answers [7] and the three history
    members hold other values. *)
Lemma first_step_ignores_history_witness :
  n start = 0 /\
  let t := set_ptLastVel (5, 5)%float
             (set_lastGrad (2, 2)%float (set_lastX (1, 1)%float start)) in
  let r := step_with (modifier HestenesStiefel) sphere sphere_grad start in
  let r' := step_with (LO := LineSearch.with_alpha (fun _ => 7%float) secant_search)
                      (fun _ => (1 / 0)%float) sphere sphere_grad t in
  fst r' = fst r /\
  x (snd r') = x (snd r) /\
  grad (snd r') = grad (snd r) /\
  lastGrad (snd r') = lastGrad (snd r) /\
  velocity (snd r') = velocity (snd r) /\
  geodesic (snd r') = geodesic (snd r) /\
  lineSearch (snd r') = lineSearch (snd r) /\
  n (snd r') = n (snd r) /\
  maxSteps (snd r') = maxSteps (snd r) /\
  (fst r = true -> lastX (snd r') = lastX (snd r)) /\
  (fst r = false -> lastX (snd r) = lastX start /\ lastX (snd r') = (1, 1)%float) /\
  ptLastVel (snd r) = ptLastVel start /\
  ptLastVel (snd r') = (5, 5)%float.
Proof.
  assert (Hn : n start = 0) by reflexivity.
  split; [exact Hn|].
  exact (first_step_ignores_history vec2 vec2 Line double vec2_ops line_ops
           secant_search (fun _ => 7%float) (modifier HestenesStiefel)
           (fun _ => (1 / 0)%float) sphere sphere_grad start
           (1, 1)%float (2, 2)%float (5, 5)%float Hn).
Defined.

(** ** Further properties of [step] *)

(** A [double] compared with itself: equal unless it is NaN, never less. *)
Lemma SFcompare_refl (f : spec_float) :
  SFcompare f f = Some Eq \/ f = S754_nan.
Proof.
  destruct f as [sg | sg | | sg m e]; cbn.
  - left. reflexivity.
  - left. destruct sg; reflexivity.
  - right. reflexivity.
  - left. rewrite Z.compare_refl.
    change (Pos.compare_cont Eq m m) with (Pos.compare m m).
    rewrite Pos.compare_refl. destruct sg; reflexivity.
Qed.

(** NaN fails the test [alpha <= 0.0], as it fails every comparison. *)
Lemma nan_not_le (a b : double) :
  PrimFloat.is_nan a = true -> (a <=? b)%float = false.
Proof.
  unfold PrimFloat.is_nan. rewrite FloatAxioms.eqb_spec, FloatAxioms.leb_spec. unfold SFeqb, SFleb.
  destruct (SFcompare_refl (Prim2SF a)) as [E | E]; rewrite E.
  - discriminate.
  - reflexivity.
Qed.

Lemma double_ltb_irrefl (a : double) : (a <? a)%float = false.
Proof.
  rewrite FloatAxioms.ltb_spec. unfold SFltb.
  destruct (SFcompare_refl (Prim2SF a)) as [E | E]; rewrite E; reflexivity.
Qed.

Section MoreStepProperties.

Context {Point Vector G LS : Type}.
Context {VO : VectorOps Vector}.
Context {GO : Geodesic.Ops G Point Vector}.
Context {LO : LineSearch.Ops LS}.

Abbreviation CG := (ConjugateGradient Point Vector G LS).

Variable sch : Scheme.
Variable cost : Point -> double.
Variable gradient : Point -> Vector.

(** X1. A step whose line search returns an [alpha] that is not [<= 0]
    reports success, moves the old [x] into [lastX] and puts [x] on the
    geodesic it has just bound to the old [x] and the new velocity, at
    parameter [alpha]. *)
Theorem step_success_moves (s : CG) :
  (step_alpha sch cost gradient s <=? 0)%float = false ->
  let s' := snd (step sch cost gradient s) in
  fst (step sch cost gradient s) = true /\
  lastX s' = x s /\
  x s' = Geodesic.at_ (geodesic s') (step_alpha sch cost gradient s) /\
  geodesic s' = Geodesic.set (geodesic s) (x s) (velocity s') /\
  lastGrad s' = grad s /\
  grad s' = gradient (x s).
Proof.
  intros Hle. cbv zeta. revert Hle. unfold step_alpha, step.
  rewrite step_with_eq. cbv zeta. intros ->.
  rewrite step_direction_eq. cbn.
  repeat split; reflexivity.
Qed.

(** X2. A line search that returns NaN is not taken as a failure: the test
    [alpha <= 0.0] is false for NaN, so [step] reports success and moves
    [x] to the geodesic's point at parameter NaN. *)
Theorem step_nan_alpha_succeeds (s : CG) :
  PrimFloat.is_nan (step_alpha sch cost gradient s) = true ->
  let s' := snd (step sch cost gradient s) in
  fst (step sch cost gradient s) = true /\
  lastX s' = x s /\
  x s' = Geodesic.at_ (geodesic s') (step_alpha sch cost gradient s).
Proof.
  intros Hnan. cbv zeta.
  apply (nan_not_le _ 0%float) in Hnan. revert Hnan.
  unfold step_alpha, step.
  rewrite step_with_eq. cbv zeta. intros ->.
  rewrite step_direction_eq. cbn.
  repeat split; reflexivity.
Qed.

(** X3. Under Polak-Ribiere, a step with [n > 0] leaves the velocity
    [-grad + ptLastVel * beta] with beta the inner product at [x] of [grad]
    with [grad - ptlastGrad], divided by the squared norm at [x] of
    [ptlastGrad], the previous gradient transported along the previous
    geodesic. *)
Theorem polak_ribiere_beta (s : CG) :
  0 < n s ->
  let s' := snd (step PolakRibiere cost gradient s) in
  let ip := metric s (x s) in
  let ptlastGrad := transported_gradient s in
  let b := (inner ip (grad s') (vsub (grad s') ptlastGrad)
            / norm2 ip ptlastGrad)%float in
  grad s' = gradient (x s) /\
  ptLastVel s' = transported_velocity s /\
  velocity s' = vadd (vneg (grad s')) (vscale (ptLastVel s') b).
Proof.
  intros Hn. cbv zeta. unfold step.
  rewrite step_with_eq, step_direction_eq. cbv zeta.
  apply Z.ltb_lt in Hn. rewrite Hn.
  case_alpha; repeat split; reflexivity.
Qed.

(** X4. Under Conjugate-Descent, a step with [n > 0] leaves the velocity
    [-grad + ptLastVel * beta] with beta the negated squared norm at [x] of
    [grad], divided by the inner product at [x] of [ptLastVel] with
    [ptlastGrad]. *)
Theorem conjugate_descent_beta (s : CG) :
  0 < n s ->
  let s' := snd (step ConjugateDescent cost gradient s) in
  let ip := metric s (x s) in
  let ptlastGrad := transported_gradient s in
  let b := (- norm2 ip (grad s') / inner ip (ptLastVel s') ptlastGrad)%float in
  grad s' = gradient (x s) /\
  ptLastVel s' = transported_velocity s /\
  velocity s' = vadd (vneg (grad s')) (vscale (ptLastVel s') b).
Proof.
  intros Hn. cbv zeta. unfold step.
  rewrite step_with_eq, step_direction_eq. cbv zeta.
  apply Z.ltb_lt in Hn. rewrite Hn.
  case_alpha; repeat split; reflexivity.
Qed.

(** X5. Under Dai-Yuan, a step with [n > 0] leaves the velocity
    [-grad + ptLastVel * beta] with beta the squared norm at [x] of [grad],
    divided by the inner product at [x] of [ptLastVel] with
    [grad - ptlastGrad]. *)
Theorem dai_yuan_beta (s : CG) :
  0 < n s ->
  let s' := snd (step DaiYuan cost gradient s) in
  let ip := metric s (x s) in
  let ptlastGrad := transported_gradient s in
  let b := (norm2 ip (grad s')
            / inner ip (ptLastVel s') (vsub (grad s') ptlastGrad))%float in
  grad s' = gradient (x s) /\
  ptLastVel s' = transported_velocity s /\
  velocity s' = vadd (vneg (grad s')) (vscale (ptLastVel s') b).
Proof.
  intros Hn. cbv zeta. unfold step.
  rewrite step_with_eq, step_direction_eq. cbv zeta.
  apply Z.ltb_lt in Hn. rewrite Hn.
  case_alpha; repeat split; reflexivity.
Qed.

End MoreStepProperties.

(** ** Further properties of [optimize] *)

Section MoreOptimizeProperties.

Context {Point Vector G LS : Type}.
Context {VO : VectorOps Vector}.
Context {GO : Geodesic.Ops G Point Vector}.
Context {LO : LineSearch.Ops LS}.

Abbreviation CG := (ConjugateGradient Point Vector G LS).

Variable sch : Scheme.
Variable cost : Point -> double.
Variable gradient : Point -> Vector.

(** The iteration index along the loop: it counts up by one per call from
    where the loop starts, stays below the cap at every call, and ends as the
    start plus the number of calls that succeeded. *)
Lemma optimize_loop_indices (fuel : nat) :
  forall (s : CG) (calls : list CG) (s' : CG),
    optimize_loop_calls sch cost gradient fuel s = Some (calls, s') ->
    0 <= n s -> maxSteps s < uint32_max ->
    (forall (i : nat) (c : CG),
        nth_error calls i = Some c ->
        n c = n s + Z.of_nat i /\ n c < maxSteps s) /\
    n s' = n s + Z.of_nat (length (filter (fun c => fst (step sch cost gradient c)) calls)) /\
    (n s <= maxSteps s -> n s' <= maxSteps s).
Proof.
  induction fuel as [|fuel IH]; intros s calls s' Hrun Hn0 Hmax; [discriminate|].
  cbn [optimize_loop_calls] in Hrun.
  destruct (Z.ltb_spec (n s) (maxSteps s)) as [Hlt | Hge].
  2:{ injection Hrun as <- <-. split.
      - intros [|i] c Hc; discriminate.
      - cbn. split; lia. }
  pose proof (step_n sch cost gradient s) as Hsn.
  pose proof (step_maxSteps sch cost gradient s) as Hsm.
  destruct (step sch cost gradient s) as [ok s1] eqn:Hstep. cbn [snd] in Hsn, Hsm.
  destruct ok.
  - assert (Hwrap : uint32 (n s1 + 1) = n s + 1).
    { unfold uint32. rewrite Hsn. apply Z.mod_small. lia. }
    rewrite Hwrap in Hrun.
    destruct (optimize_loop_calls sch cost gradient fuel (set_n (n s + 1) s1))
      as [[calls' r]|] eqn:Hrec; [|discriminate].
    injection Hrun as <- <-.
    destruct (IH _ _ _ Hrec) as (Hidx & Hcount & Hcap);
      cbn [n maxSteps set_n] in *; try lia.
    split; [|split].
    + intros [|i] c Hc.
      * cbn in Hc. injection Hc as <-. split; lia.
      * cbn in Hc. destruct (Hidx i c Hc) as [Hi Hb]. split; lia.
    + cbn [filter]. rewrite Hstep. cbn [fst length]. lia.
    + intros _. lia.
  - injection Hrun as <- <-. split; [|split].
    + intros [|i] c Hc.
      * cbn in Hc. injection Hc as <-. split; lia.
      * destruct i; discriminate.
    + cbn [filter]. rewrite Hstep. cbn [fst length]. lia.
    + lia.
Qed.

(** How the calls of the loop follow one another. *)
Lemma optimize_loop_chain (fuel : nat) :
  forall (s : CG) (calls : list CG) (s' : CG),
    optimize_loop_calls sch cost gradient fuel s = Some (calls, s') ->
    (forall c : CG, nth_error calls 0 = Some c -> c = s) /\
    (forall (i : nat) (c c' : CG),
        nth_error calls i = Some c -> nth_error calls (S i) = Some c' ->
        fst (step sch cost gradient c) = true /\
        c' = set_n (uint32 (n c + 1)) (snd (step sch cost gradient c))) /\
    (calls = [] -> s' = s) /\
    (forall (pre : list CG) (c : CG),
        calls = pre ++ [c] ->
        s' = if fst (step sch cost gradient c)
             then set_n (uint32 (n c + 1)) (snd (step sch cost gradient c))
             else snd (step sch cost gradient c)).
Proof.
  induction fuel as [|fuel IH]; intros s calls s' Hrun; [discriminate|].
  cbn [optimize_loop_calls] in Hrun.
  destruct (n s <? maxSteps s).
  2:{ injection Hrun as <- <-. repeat split.
      - intros c Hc. discriminate.
      - destruct i; discriminate.
      - destruct i; discriminate.
      - intros pre c Hc. destruct pre; discriminate. }
  pose proof (step_n sch cost gradient s) as Hsn.
  destruct (step sch cost gradient s) as [ok s1] eqn:Hstep. cbn [snd] in Hsn.
  rewrite Hsn in Hrun.
  destruct ok.
  - destruct (optimize_loop_calls sch cost gradient fuel (set_n (uint32 (n s + 1)) s1))
      as [[calls' r]|] eqn:Hrec; [|discriminate].
    injection Hrun as <- <-.
    destruct (IH _ _ _ Hrec) as (Hhd & Hnext & Hnil & Hlast).
    split; [|split; [|split]].
    + intros c Hc. cbn in Hc. congruence.
    + intros [|i] c c' Hc Hc'.
      * cbn in Hc, Hc'. injection Hc as <-. rewrite Hstep. cbn [fst snd].
        split; [reflexivity|]. apply Hhd. exact Hc'.
      * cbn in Hc, Hc'. apply (Hnext i); assumption.
    + discriminate.
    + intros [|p pre] c Hc.
      * cbn in Hc. injection Hc as <- Hc. rewrite Hstep. cbn [fst snd].
        apply Hnil. exact Hc.
      * cbn in Hc. injection Hc as _ Hc. apply (Hlast pre). exact Hc.
  - injection Hrun as <- <-. split; [|split; [|split]].
    + intros c Hc. cbn in Hc. congruence.
    + intros [|i] c c' Hc Hc'; [discriminate|]. destruct i; discriminate.
    + discriminate.
    + intros [|p pre] c Hc.
      * cbn in Hc. injection Hc as <-. rewrite Hstep. reflexivity.
      * cbn in Hc. injection Hc as _ Hc. destruct pre; discriminate.
Qed.

(** The loop ends on the point its last call left, or on the point it
    started with when it made no call. *)
Lemma optimize_loop_last (fuel : nat) :
  forall (s : CG) (calls : list CG) (s' : CG),
    optimize_loop_calls sch cost gradient fuel s = Some (calls, s') ->
    x s' = last (visited sch cost gradient calls) (x s).
Proof.
  induction fuel as [|fuel IH]; intros s calls s' Hrun; [discriminate|].
  cbn [optimize_loop_calls] in Hrun.
  destruct (n s <? maxSteps s).
  2:{ injection Hrun as <- <-. reflexivity. }
  destruct (step sch cost gradient s) as [ok s1] eqn:Hstep.
  destruct ok.
  - destruct (optimize_loop_calls sch cost gradient fuel (set_n (uint32 (n s1 + 1)) s1))
      as [[calls' r]|] eqn:Hrec; [|discriminate].
    injection Hrun as <- <-.
    cbn [visited map]. rewrite last_cons, Hstep. cbn [snd].
    apply (IH _ _ _ Hrec).
  - injection Hrun as <- <-. cbn [visited map last]. rewrite Hstep. reflexivity.
Qed.

(** Every call of the loop is made with the cap and the metric the loop
    started with. *)
Lemma optimize_loop_calls_frame (fuel : nat) :
  forall (s : CG) (calls : list CG) (s' : CG),
    optimize_loop_calls sch cost gradient fuel s = Some (calls, s') ->
    forall c : CG, In c calls -> maxSteps c = maxSteps s /\ metric c = metric s.
Proof.
  induction fuel as [|fuel IH]; intros s calls s' Hrun c Hin; [discriminate|].
  cbn [optimize_loop_calls] in Hrun.
  destruct (n s <? maxSteps s).
  2:{ injection Hrun as <- <-. destruct Hin. }
  pose proof (step_metric sch cost gradient s) as Hm.
  pose proof (step_maxSteps sch cost gradient s) as Hc.
  destruct (step sch cost gradient s) as [ok s1]. cbn [snd] in Hm, Hc.
  destruct ok.
  - destruct (optimize_loop_calls sch cost gradient fuel (set_n (uint32 (n s1 + 1)) s1))
      as [[calls' r]|] eqn:Hrec; [|discriminate].
    injection Hrun as <- <-.
    destruct Hin as [<- | Hin]; [split; reflexivity|].
    destruct (IH _ _ _ Hrec c Hin) as [Hc' Hm']. cbn [metric maxSteps set_n] in Hc', Hm'.
    split; congruence.
  - injection Hrun as <- <-.
    destruct Hin as [<- | []]. split; reflexivity.
Qed.

(** X6. With the cap [maxSteps = 0], [optimize] makes no call of [step]
    and returns [initial]; the instance is left with [x = initial], the
    line search reset and [n = 0]. *)
Theorem optimize_zero_cap (fuel : nat) (initial : Point) (s : CG) :
  maxSteps s = 0 ->
  optimize_calls sch cost gradient (S fuel) initial s =
    Some ([], optimize_init initial s) /\
  optimize sch cost gradient (S fuel) initial s =
    Some (initial, optimize_init initial s).
Proof.
  intros Hcap. unfold optimize_calls, optimize.
  rewrite optimize_loop_erase. cbn [optimize_loop_calls].
  change (n (optimize_init initial s)) with 0.
  change (maxSteps (optimize_init initial s)) with (maxSteps s).
  rewrite Hcap. change (0 <? 0) with false. cbv iota.
  split; reflexivity.
Qed.

(** X7. In a run of [optimize], the [i]-th call of [step] (from 0) is made
    with [n = i], below the cap; when [optimize] returns, [n] is the number
    of calls that succeeded and does not exceed [maxSteps]. *)
Theorem optimize_call_indices
        (fuel : nat) (initial : Point) (s : CG) (calls : list CG) (s' : CG) :
  is_uint32 (maxSteps s) ->
  optimize_calls sch cost gradient fuel initial s = Some (calls, s') ->
  (forall (i : nat) (c : CG),
      nth_error calls i = Some c -> n c = Z.of_nat i /\ n c < maxSteps s) /\
  n s' = Z.of_nat (length (filter (fun c => fst (step sch cost gradient c)) calls)) /\
  n s' <= maxSteps s.
Proof.
  intros [Hlo Hhi] Hrun. unfold optimize_calls in Hrun.
  destruct (optimize_loop_indices fuel _ _ _ Hrun) as (Hidx & Hcount & Hcap);
    cbn [n maxSteps optimize_init set_n set_lineSearch set_x] in *; try lia.
  split; [|split].
  - intros i c Hc. destruct (Hidx i c Hc) as [Hi Hb]. split; lia.
  - lia.
  - apply Hcap. exact Hlo.
Qed.

(** X8. The calls of a run follow one another: the first is made on the
    instance with [x = initial], the line search reset and [n = 0]; a call
    is followed by another only if it succeeded, and the next is made on
    what it left with [n] raised by one; [optimize] leaves what its last
    call left, with [n] raised by one if that call succeeded. *)
Theorem optimize_calls_chain
        (fuel : nat) (initial : Point) (s : CG) (calls : list CG) (s' : CG) :
  optimize_calls sch cost gradient fuel initial s = Some (calls, s') ->
  (forall c : CG, nth_error calls 0 = Some c -> c = optimize_init initial s) /\
  (forall (i : nat) (c c' : CG),
      nth_error calls i = Some c -> nth_error calls (S i) = Some c' ->
      fst (step sch cost gradient c) = true /\
      c' = set_n (uint32 (n c + 1)) (snd (step sch cost gradient c))) /\
  (calls = [] -> s' = optimize_init initial s) /\
  (forall (pre : list CG) (c : CG),
      calls = pre ++ [c] ->
      s' = if fst (step sch cost gradient c)
           then set_n (uint32 (n c + 1)) (snd (step sch cost gradient c))
           else snd (step sch cost gradient c)).
Proof.
  intros Hrun. unfold optimize_calls in Hrun.
  exact (optimize_loop_chain fuel _ _ _ Hrun).
Qed.

(** X9. [optimize] returns the point the last call of [step] left in [x],
    whether that call succeeded or not, and [initial] when no call was
    made. *)
Theorem optimize_returns_last_visited
        (fuel : nat) (initial : Point) (s : CG) (calls : list CG) (s' : CG) :
  optimize_calls sch cost gradient fuel initial s = Some (calls, s') ->
  optimize sch cost gradient fuel initial s =
    Some (last (visited sch cost gradient calls) initial, s').
Proof.
  intros Hrun. unfold optimize_calls in Hrun. unfold optimize.
  rewrite optimize_loop_erase, Hrun. cbn [option_map snd].
  rewrite (optimize_loop_last fuel _ _ _ Hrun). reflexivity.
Qed.

(** X10. At every call of [step] after the first, the history members are
    those of the call before: [lastX] is the point that call started from,
    [grad] (the gradient [modifier] will see as [lastGrad]) is the gradient
    at [lastX], the geodesic is the one bound to [lastX] and [velocity], and
    [x] is its point at the [alpha] that call's line search returned. *)
Theorem optimize_history_invariant
        (fuel : nat) (initial : Point) (s : CG) (calls : list CG) (s' : CG) :
  optimize_calls sch cost gradient fuel initial s = Some (calls, s') ->
  forall (i : nat) (c c' : CG),
    nth_error calls i = Some c -> nth_error calls (S i) = Some c' ->
    (step_alpha sch cost gradient c <=? 0)%float = false /\
    lastX c' = x c /\
    grad c' = gradient (lastX c') /\
    lastGrad c' = grad c /\
    geodesic c' = Geodesic.set (geodesic c) (lastX c') (velocity c') /\
    x c' = Geodesic.at_ (geodesic c') (step_alpha sch cost gradient c).
Proof.
  intros Hrun i c c' Hc Hc'. unfold optimize_calls in Hrun.
  destruct (optimize_loop_chain fuel _ _ _ Hrun) as (_ & Hnext & _).
  destruct (Hnext i c c' Hc Hc') as [Hok ->].
  rewrite step_fst in Hok. apply negb_true_iff in Hok.
  split; [exact Hok|].
  revert Hok. unfold step_alpha, step.
  rewrite step_with_eq. cbv zeta. intros ->.
  rewrite step_direction_eq. cbn.
  repeat split; reflexivity.
Qed.

(** X11. [optimize] writes neither [maxSteps] nor [metric]: every call of
    [step] is made with those of the instance [optimize] was called on, and
    so is the instance it leaves. *)
Theorem optimize_keeps_cap_and_metric
        (fuel : nat) (initial : Point) (s : CG) (calls : list CG) (s' : CG) :
  optimize_calls sch cost gradient fuel initial s = Some (calls, s') ->
  maxSteps s' = maxSteps s /\ metric s' = metric s /\
  (forall c : CG, In c calls -> maxSteps c = maxSteps s /\ metric c = metric s).
Proof.
  intros Hrun. unfold optimize_calls in Hrun.
  destruct (optimize_loop_frame sch cost gradient fuel _ _ _ Hrun) as [Hm Hc].
  split; [exact Hc|]. split; [exact Hm|].
  intros c Hin.
  exact (optimize_loop_calls_frame fuel _ _ _ Hrun c Hin).
Qed.

End MoreOptimizeProperties.

(** ** Properties of [BasicMA::compute] *)

Section BasicMAProperties.

Variable Action : Type.
Variables Out Long : Action.
Variable Sample : Type.
Variable Average : Type.

(** X12. With fewer samples than the larger of the two periods, [compute]
    answers [Out] whatever the averages would be: it returns before
    building any [WMA]. *)
Theorem compute_insufficient_data
        (gt : Average -> Average -> bool) (WMA_back : Z -> list Sample -> Average)
        (m : BasicMA.t) (range : list Sample) :
  Z.of_nat (length range) < Z.max (BasicMA.shortPeriod m) (BasicMA.longPeriod m) ->
  BasicMA.compute Out Long gt WMA_back m range = Out.
Proof.
  intros Hfew. unfold BasicMA.compute. cbv zeta.
  apply Z.ltb_lt in Hfew. rewrite Hfew. reflexivity.
Qed.

(** X13. [compute] answers [Out] or [Long] and nothing else; it answers
    [Long] exactly when there are at least as many samples as the larger
    period and the short average is above the long one. *)
Theorem compute_long_iff
        (gt : Average -> Average -> bool) (WMA_back : Z -> list Sample -> Average)
        (m : BasicMA.t) (range : list Sample) :
  Long <> Out ->
  (BasicMA.compute Out Long gt WMA_back m range = Out \/
   BasicMA.compute Out Long gt WMA_back m range = Long) /\
  (BasicMA.compute Out Long gt WMA_back m range = Long <->
   Z.max (BasicMA.shortPeriod m) (BasicMA.longPeriod m) <= Z.of_nat (length range) /\
   gt (WMA_back (BasicMA.shortPeriod m) range)
      (WMA_back (BasicMA.longPeriod m) range) = true).
Proof.
  intros Hdiff. unfold BasicMA.compute. cbv zeta.
  destruct (Z.ltb_spec (Z.of_nat (length range))
              (Z.max (BasicMA.shortPeriod m) (BasicMA.longPeriod m))) as [Hfew | Hmany].
  - split; [left; reflexivity|]. split.
    + intros E. symmetry in E. contradiction.
    + intros [Hle _]. lia.
  - destruct (gt (WMA_back (BasicMA.shortPeriod m) range)
                 (WMA_back (BasicMA.longPeriod m) range)) eqn:Hgt.
    + split; [right; reflexivity|]. split; [intros _; split; [exact Hmany | reflexivity]|].
      intros _. reflexivity.
    + split; [left; reflexivity|]. split.
      * intros E. symmetry in E. contradiction.
      * intros [_ Habs]. discriminate.
Qed.

(** X14. When both periods are the same and [>] never holds between a
    value and itself, [compute] never answers [Long]: the two averages are
    the same value. *)
Theorem compute_equal_periods
        (gt : Average -> Average -> bool) (WMA_back : Z -> list Sample -> Average)
        (m : BasicMA.t) (range : list Sample) :
  (forall v : Average, gt v v = false) ->
  BasicMA.shortPeriod m = BasicMA.longPeriod m ->
  BasicMA.compute Out Long gt WMA_back m range = Out.
Proof.
  intros Hirr Hsame. unfold BasicMA.compute. cbv zeta.
  rewrite Hsame, Hirr.
  destruct (Z.of_nat (length range) <? _); reflexivity.
Qed.

End BasicMAProperties.

(** ** Instances of the further properties *)

Lemma step_success_moves_witness :
  (step_alpha HestenesStiefel sphere sphere_grad start <=? 0)%float = false /\
  let s' := snd (step HestenesStiefel sphere sphere_grad start) in
  fst (step HestenesStiefel sphere sphere_grad start) = true /\
  lastX s' = x start /\
  x s' = Geodesic.at_ (geodesic s') (step_alpha HestenesStiefel sphere sphere_grad start) /\
  geodesic s' = Geodesic.set (geodesic start) (x start) (velocity s') /\
  lastGrad s' = grad start /\
  grad s' = sphere_grad (x start).
Proof.
  assert (Hle : (step_alpha HestenesStiefel sphere sphere_grad start <=? 0)%float = false)
    by (vm_compute; reflexivity).
  split; [exact Hle|].
  exact (step_success_moves (VO := vec2_ops) (GO := line_ops) (LO := secant_search)
           HestenesStiefel sphere sphere_grad start Hle).
Defined.

(** From [(2^700, 0)] on [sphere] the derivative overflows at both ends of
    the secant, the step size is NaN, and the step is reported as a
    success. *)
Lemma step_nan_alpha_succeeds_witness :
  let s := set_x (0x1p+700, 0)%float (fresh 10) in
  PrimFloat.is_nan (step_alpha HestenesStiefel sphere sphere_grad s) = true /\
  let s' := snd (step HestenesStiefel sphere sphere_grad s) in
  fst (step HestenesStiefel sphere sphere_grad s) = true /\
  lastX s' = x s /\
  x s' = Geodesic.at_ (geodesic s') (step_alpha HestenesStiefel sphere sphere_grad s).
Proof.
  cbv zeta.
  assert (Hnan : PrimFloat.is_nan
                   (step_alpha HestenesStiefel sphere sphere_grad
                      (set_x (0x1p+700, 0)%float (fresh 10))) = true)
    by (vm_compute; reflexivity).
  split; [exact Hnan|].
  exact (step_nan_alpha_succeeds (VO := vec2_ops) (GO := line_ops) (LO := secant_search)
           HestenesStiefel sphere sphere_grad _ Hnan).
Defined.

Lemma polak_ribiere_beta_witness :
  0 < n after_first /\
  let s' := snd (step PolakRibiere sphere sphere_grad after_first) in
  let ip := metric after_first (x after_first) in
  let ptlastGrad := transported_gradient after_first in
  let b := (inner ip (grad s') (vsub (grad s') ptlastGrad)
            / norm2 ip ptlastGrad)%float in
  grad s' = sphere_grad (x after_first) /\
  ptLastVel s' = transported_velocity after_first /\
  velocity s' = vadd (vneg (grad s')) (vscale (ptLastVel s') b).
Proof.
  assert (Hn : 0 < n after_first) by reflexivity.
  split; [exact Hn|].
  exact (polak_ribiere_beta (VO := vec2_ops) (GO := line_ops) (LO := secant_search)
           sphere sphere_grad after_first Hn).
Defined.

Lemma conjugate_descent_beta_witness :
  0 < n after_first /\
  let s' := snd (step ConjugateDescent sphere sphere_grad after_first) in
  let ip := metric after_first (x after_first) in
  let ptlastGrad := transported_gradient after_first in
  let b := (- norm2 ip (grad s') / inner ip (ptLastVel s') ptlastGrad)%float in
  grad s' = sphere_grad (x after_first) /\
  ptLastVel s' = transported_velocity after_first /\
  velocity s' = vadd (vneg (grad s')) (vscale (ptLastVel s') b).
Proof.
  assert (Hn : 0 < n after_first) by reflexivity.
  split; [exact Hn|].
  exact (conjugate_descent_beta (VO := vec2_ops) (GO := line_ops) (LO := secant_search)
           sphere sphere_grad after_first Hn).
Defined.

Lemma dai_yuan_beta_witness :
  0 < n after_first /\
  let s' := snd (step DaiYuan sphere sphere_grad after_first) in
  let ip := metric after_first (x after_first) in
  let ptlastGrad := transported_gradient after_first in
  let b := (norm2 ip (grad s')
            / inner ip (ptLastVel s') (vsub (grad s') ptlastGrad))%float in
  grad s' = sphere_grad (x after_first) /\
  ptLastVel s' = transported_velocity after_first /\
  velocity s' = vadd (vneg (grad s')) (vscale (ptLastVel s') b).
Proof.
  assert (Hn : 0 < n after_first) by reflexivity.
  split; [exact Hn|].
  exact (dai_yuan_beta (VO := vec2_ops) (GO := line_ops) (LO := secant_search)
           sphere sphere_grad after_first Hn).
Defined.

Lemma optimize_zero_cap_witness :
  maxSteps (fresh 0) = 0 /\
  optimize_calls HestenesStiefel sphere sphere_grad 1 (3, 4)%float (fresh 0) =
    Some ([], optimize_init (3, 4)%float (fresh 0)) /\
  optimize HestenesStiefel sphere sphere_grad 1 (3, 4)%float (fresh 0) =
    Some ((3, 4)%float, optimize_init (3, 4)%float (fresh 0)).
Proof.
  assert (Hcap : maxSteps (fresh 0) = 0) by reflexivity.
  split; [exact Hcap|].
  exact (optimize_zero_cap (VO := vec2_ops) (GO := line_ops) (LO := secant_search)
           HestenesStiefel sphere sphere_grad 0%nat (3, 4)%float (fresh 0) Hcap).
Defined.

(** The run from [(3, 4)] on [sphere] makes two calls. *)
Lemma sphere_run_calls :
  optimize_calls HestenesStiefel sphere sphere_grad 11 (3, 4)%float (fresh 10) =
    Some ([start; after_first],
          snd (step HestenesStiefel sphere sphere_grad after_first)).
Proof. vm_compute. reflexivity. Qed.

Lemma optimize_call_indices_witness :
  let calls := [start; after_first] in
  let s' := snd (step HestenesStiefel sphere sphere_grad after_first) in
  is_uint32 (maxSteps (fresh 10)) /\
  optimize_calls HestenesStiefel sphere sphere_grad 11 (3, 4)%float (fresh 10) =
    Some (calls, s') /\
  (forall (i : nat) c,
      nth_error calls i = Some c -> n c = Z.of_nat i /\ n c < maxSteps (fresh 10)) /\
  n s' = Z.of_nat (length (filter (fun c => fst (step HestenesStiefel sphere sphere_grad c))
                                  calls)) /\
  n s' <= maxSteps (fresh 10).
Proof.
  cbv zeta.
  assert (Hcap : is_uint32 (maxSteps (fresh 10)))
    by (unfold is_uint32, uint32_max; cbn; lia).
  split; [exact Hcap|]. split; [exact sphere_run_calls|].
  exact (optimize_call_indices (VO := vec2_ops) (GO := line_ops) (LO := secant_search)
           HestenesStiefel sphere sphere_grad 11%nat (3, 4)%float (fresh 10) _ _
           Hcap sphere_run_calls).
Defined.

Lemma optimize_calls_chain_witness :
  let calls := [start; after_first] in
  let s' := snd (step HestenesStiefel sphere sphere_grad after_first) in
  optimize_calls HestenesStiefel sphere sphere_grad 11 (3, 4)%float (fresh 10) =
    Some (calls, s') /\
  (forall c, nth_error calls 0 = Some c -> c = optimize_init (3, 4)%float (fresh 10)) /\
  (forall (i : nat) c c',
      nth_error calls i = Some c -> nth_error calls (S i) = Some c' ->
      fst (step HestenesStiefel sphere sphere_grad c) = true /\
      c' = set_n (uint32 (n c + 1)) (snd (step HestenesStiefel sphere sphere_grad c))) /\
  (calls = [] -> s' = optimize_init (3, 4)%float (fresh 10)) /\
  (forall pre c,
      calls = pre ++ [c] ->
      s' = if fst (step HestenesStiefel sphere sphere_grad c)
           then set_n (uint32 (n c + 1)) (snd (step HestenesStiefel sphere sphere_grad c))
           else snd (step HestenesStiefel sphere sphere_grad c)).
Proof.
  cbv zeta. split; [exact sphere_run_calls|].
  exact (optimize_calls_chain (VO := vec2_ops) (GO := line_ops) (LO := secant_search)
           HestenesStiefel sphere sphere_grad 11%nat (3, 4)%float (fresh 10) _ _
           sphere_run_calls).
Defined.

Lemma optimize_returns_last_visited_witness :
  let calls := [start; after_first] in
  let s' := snd (step HestenesStiefel sphere sphere_grad after_first) in
  optimize_calls HestenesStiefel sphere sphere_grad 11 (3, 4)%float (fresh 10) =
    Some (calls, s') /\
  optimize HestenesStiefel sphere sphere_grad 11 (3, 4)%float (fresh 10) =
    Some (last (visited HestenesStiefel sphere sphere_grad calls) (3, 4)%float, s').
Proof.
  cbv zeta. split; [exact sphere_run_calls|].
  exact (optimize_returns_last_visited (VO := vec2_ops) (GO := line_ops)
           (LO := secant_search)
           HestenesStiefel sphere sphere_grad 11%nat (3, 4)%float (fresh 10) _ _
           sphere_run_calls).
Defined.

Lemma optimize_history_invariant_witness :
  optimize_calls HestenesStiefel sphere sphere_grad 11 (3, 4)%float (fresh 10) =
    Some ([start; after_first],
          snd (step HestenesStiefel sphere sphere_grad after_first)) /\
  nth_error [start; after_first] 0 = Some start /\
  nth_error [start; after_first] 1 = Some after_first /\
  (step_alpha HestenesStiefel sphere sphere_grad start <=? 0)%float = false /\
  lastX after_first = x start /\
  grad after_first = sphere_grad (lastX after_first) /\
  lastGrad after_first = grad start /\
  geodesic after_first =
    Geodesic.set (geodesic start) (lastX after_first) (velocity after_first) /\
  x after_first =
    Geodesic.at_ (geodesic after_first)
                 (step_alpha HestenesStiefel sphere sphere_grad start).
Proof.
  split; [exact sphere_run_calls|].
  split; [reflexivity|]. split; [reflexivity|].
  exact (optimize_history_invariant (VO := vec2_ops) (GO := line_ops)
           (LO := secant_search)
           HestenesStiefel sphere sphere_grad 11%nat (3, 4)%float (fresh 10) _ _
           sphere_run_calls 0%nat start after_first eq_refl eq_refl).
Defined.

Lemma optimize_keeps_cap_and_metric_witness :
  let calls := [start; after_first] in
  let s' := snd (step HestenesStiefel sphere sphere_grad after_first) in
  optimize_calls HestenesStiefel sphere sphere_grad 11 (3, 4)%float (fresh 10) =
    Some (calls, s') /\
  maxSteps s' = maxSteps (fresh 10) /\ metric s' = metric (fresh 10) /\
  (forall c, In c calls ->
             maxSteps c = maxSteps (fresh 10) /\ metric c = metric (fresh 10)).
Proof.
  cbv zeta. split; [exact sphere_run_calls|].
  exact (optimize_keeps_cap_and_metric (VO := vec2_ops) (GO := line_ops)
           (LO := secant_search)
           HestenesStiefel sphere sphere_grad 11%nat (3, 4)%float (fresh 10) _ _
           sphere_run_calls).
Defined.

(** Three samples are too few for the default periods 50 and 100. *)
Lemma compute_insufficient_data_witness :
  let range := [1; 2; 3]%float in
  Z.of_nat (length range) <
    Z.max (BasicMA.shortPeriod BasicMA.default) (BasicMA.longPeriod BasicMA.default) /\
  BasicMA.compute false true BasicMA.double_gt BasicMA.sum_back BasicMA.default range
    = false.
Proof.
  cbv zeta.
  assert (Hfew : Z.of_nat (length [1; 2; 3]%float) <
                 Z.max (BasicMA.shortPeriod BasicMA.default)
                       (BasicMA.longPeriod BasicMA.default))
    by (cbn; lia).
  split; [exact Hfew|].
  exact (compute_insufficient_data bool false true double double
           BasicMA.double_gt BasicMA.sum_back BasicMA.default _ Hfew).
Defined.

(** With periods 2 and 3 on four rising samples the short sum is below the
    long one, and the answer is [Out]. *)
Lemma compute_long_iff_witness :
  let m := BasicMA.make 2 3 in
  let range := [1; 2; 3; 10]%float in
  true <> false /\
  (BasicMA.compute false true BasicMA.double_gt BasicMA.sum_back m range = false \/
   BasicMA.compute false true BasicMA.double_gt BasicMA.sum_back m range = true) /\
  (BasicMA.compute false true BasicMA.double_gt BasicMA.sum_back m range = true <->
   Z.max (BasicMA.shortPeriod m) (BasicMA.longPeriod m) <= Z.of_nat (length range) /\
   BasicMA.double_gt (BasicMA.sum_back (BasicMA.shortPeriod m) range)
                     (BasicMA.sum_back (BasicMA.longPeriod m) range) = true).
Proof.
  cbv zeta.
  assert (Hdiff : true <> false) by discriminate.
  split; [exact Hdiff|].
  exact (compute_long_iff bool false true double double
           BasicMA.double_gt BasicMA.sum_back (BasicMA.make 2 3) [1; 2; 3; 10]%float
           Hdiff).
Defined.

Lemma compute_equal_periods_witness :
  let m := BasicMA.make 3 3 in
  (forall v : double, BasicMA.double_gt v v = false) /\
  BasicMA.shortPeriod m = BasicMA.longPeriod m /\
  BasicMA.compute false true BasicMA.double_gt BasicMA.sum_back m [1; 2; 3; 10]%float
    = false.
Proof.
  cbv zeta.
  assert (Hirr : forall v : double, BasicMA.double_gt v v = false)
    by (intros v; apply double_ltb_irrefl).
  assert (Hsame : BasicMA.shortPeriod (BasicMA.make 3 3) =
                  BasicMA.longPeriod (BasicMA.make 3 3)) by reflexivity.
  split; [exact Hirr|]. split; [exact Hsame|].
  exact (compute_equal_periods bool false true double double
           BasicMA.double_gt BasicMA.sum_back (BasicMA.make 3 3) [1; 2; 3; 10]%float
           Hirr Hsame).
Defined.

(** ** The first iteration under different schemes *)

Section FirstIteration.

Context {Point Vector G LS : Type}.
Context {VO : VectorOps Vector}.
Context {GO : Geodesic.Ops G Point Vector}.
Context {LO : LineSearch.Ops LS}.

Abbreviation CG := (ConjugateGradient Point Vector G LS).

Variables sch1 sch2 : Scheme.
Variable cost : Point -> double.
Variable gradient : Point -> Vector.

(** With [n = 0] the step is the same under every scheme. *)
Lemma first_step_any_scheme (s : CG) :
  n s = 0 -> step sch1 cost gradient s = step sch2 cost gradient s.
Proof.
  intros Hn. unfold step.
  rewrite !step_with_eq, !step_direction_eq. cbv zeta.
  rewrite Hn. change (0 <? 0) with false. cbv iota. reflexivity.
Qed.

(** X15. With the cap [maxSteps = 1] the result of [optimize], point and
    instance, is the same under every scheme: its only step is the
    steepest-descent step of the first iteration. *)
Theorem single_step_run_ignores_scheme (fuel : nat) (initial : Point) (s : CG) :
  maxSteps s = 1 ->
  optimize sch1 cost gradient fuel initial s =
  optimize sch2 cost gradient fuel initial s.
Proof.
  intros Hcap. unfold optimize.
  destruct fuel as [|fuel]; [reflexivity|].
  cbn [optimize_loop].
  change (n (optimize_init initial s)) with 0.
  change (maxSteps (optimize_init initial s)) with (maxSteps s).
  rewrite Hcap. change (0 <? 1) with true. cbv iota.
  rewrite (first_step_any_scheme (optimize_init initial s) eq_refl).
  pose proof (step_with_n (modifier sch2) cost gradient (optimize_init initial s)) as Hn.
  pose proof (step_with_maxSteps (modifier sch2) cost gradient (optimize_init initial s))
    as Hm.
  fold (step sch2 cost gradient (optimize_init initial s)) in Hn, Hm.
  destruct (step sch2 cost gradient (optimize_init initial s)) as [ok s1].
  cbn [snd] in Hn, Hm. change (n (optimize_init initial s)) with 0 in Hn.
  change (maxSteps (optimize_init initial s)) with (maxSteps s) in Hm.
  destruct ok; [|reflexivity].
  destruct fuel as [|fuel]; [reflexivity|].
  cbn [optimize_loop n maxSteps set_n].
  rewrite Hn, Hm, Hcap. change (uint32 (0 + 1) <? 1) with false. cbv iota.
  reflexivity.
Qed.

End FirstIteration.

Lemma single_step_run_ignores_scheme_witness :
  maxSteps (fresh 1) = 1 /\
  optimize HestenesStiefel sphere sphere_grad 2 (3, 4)%float (fresh 1) =
  optimize FletcherReeves sphere sphere_grad 2 (3, 4)%float (fresh 1).
Proof.
  assert (Hcap : maxSteps (fresh 1) = 1) by reflexivity.
  split; [exact Hcap|].
  exact (single_step_run_ignores_scheme (VO := vec2_ops) (GO := line_ops)
           (LO := secant_search) HestenesStiefel FletcherReeves sphere sphere_grad
           2%nat (3, 4)%float (fresh 1) Hcap).
Defined.
